(** * Recurrent cells and drivers of [objax/nn/rnn_redesign.py]

    A shallow embedding of the three RNN cells ([MyRnnCell],
    [FactorizedRnnCell], [DDLRnnCell]) and the three drivers ([RNN],
    [VectorizedRNN], [FactorizedRNN]).

    Arrays carry their shape, as numpy arrays do.  Scalars are an abstract
    type with addition and multiplication; no algebraic law is assumed, so
    every statement holds for any arithmetic, whatever its rounding.  A
    forward call is a computation in a state-and-error monad: the state is the
    object (or the store of objects) the call may write to, the error is the
    exception the call may raise. *)

From Stdlib Require Import List Arith Lia ZArith Bool.
From ExtLib Require Import Structures.Monad Structures.MonadState
  Structures.MonadExc Data.Monads.StateMonad Data.Monads.EitherMonad.
Import ListNotations.
Import MonadNotation.
Local Open Scope monad_scope.

Set Implicit Arguments.

(** ** Errors and the two monads *)

(** The exceptions a forward call can raise: a shape mismatch (in [jn.dot],
    in a broadcast or in [jn.reshape]), [jn.concatenate] of no array at all,
    an index out of range, and the read of an attribute never assigned. *)
Inductive error : Type :=
| ShapeError
| ValueError
| IndexError
| AttributeError.

(** Pure array operations either raise or return. *)
Definition result : Type -> Type := sum error.

Abbreviation Ok := inr.
Abbreviation Err := inl.

#[export] Instance Monad_result : Monad result := Monad_either error.
#[export] Instance Exc_result : MonadExc error result := Exception_either error.

(** A method call on an object of type [W]: it may write to the object and
    may raise; what was written before an exception stays written. *)
Definition exec (W : Type) : Type -> Type := eitherT error (state W).

#[export] Instance Monad_exec W : Monad (exec W) := Monad_eitherT error _.
#[export] Instance Exc_exec W : MonadExc error (exec W) :=
  Exception_eitherT error _.
#[export] Instance State_exec W : MonadState W (exec W) :=
  MonadState_eitherT error _ _.

(** [run m w] is the pair of what the call returned or raised and the object
    after the call. *)
Definition run {W A} (m : exec W A) (w : W) : result A * W :=
  runState (unEitherT m) w.

Definition outcome {W A} (m : exec W A) (w : W) : result A := fst (run m w).
Definition after {W A} (m : exec W A) (w : W) : W := snd (run m w).

(** A pure operation used inside a method. *)
Definition pure {W A} (r : result A) : exec W A :=
  match r with
  | Ok a => ret a
  | Err e => raise e
  end.

(** A method of a sub-object [C] of the store [W], run on the store. *)
Definition zoom {W C A} (getter : W -> C) (setter : C -> W -> W)
    (m : exec C A) : exec W A :=
  w <- get ;;
  let (r, c') := run m (getter w) in
  put (setter c' w) ;;
  pure r.

(** The part [p] of the store is the same after the call as before. *)
Definition preserves {W P A} (p : W -> P) (m : exec W A) : Prop :=
  forall w, p (after m w) = p w.

(** What the call returns or raises, and the part [p] of the store after it,
    depend on the part [p] of the store before it only. *)
Definition determined_by {W P A} (p : W -> P) (m : exec W A) : Prop :=
  forall w w', p w = p w' ->
    outcome m w = outcome m w' /\ p (after m w) = p (after m w').

(** ** Scalars *)

Class Scalar (R : Type) : Type :=
  { zero : R;
    add : R -> R -> R;
    mul : R -> R -> R }.

#[export] Instance Scalar_Z : Scalar Z :=
  {| zero := 0%Z; add := Z.add; mul := Z.mul |}.

(** ** Lists *)

Fixpoint zipWith {A B C} (f : A -> B -> C) (l1 : list A) (l2 : list B)
    : list C :=
  match l1, l2 with
  | a :: l1', b :: l2' => f a b :: zipWith f l1' l2'
  | _, _ => []
  end.

(** [mapM]: a list traversed left to right in a monad. *)
Fixpoint mapM {m : Type -> Type} {Mm : Monad m} {A B} (f : A -> m B)
    (l : list A) : m (list B) :=
  match l with
  | [] => ret []
  | a :: l' => b <- f a ;; bs <- mapM f l' ;; ret (b :: bs)
  end.

(** A [for] loop over the elements of [l], threading the loop variables. *)
Fixpoint for_each {m : Type -> Type} {Mm : Monad m} {A S} (l : list A)
    (body : A -> S -> m S) (s : S) : m S :=
  match l with
  | [] => ret s
  | a :: l' => s' <- body a s ;; for_each l' body s'
  end.

(** Rows and columns exchanged; [n] is the number of columns of [m], which a
    list of no row does not tell. *)
Fixpoint transpose {A} (n : nat) (m : list (list A)) : list (list A) :=
  match m with
  | [] => repeat [] n
  | r :: m' => zipWith cons r (transpose n m')
  end.

Section Model.

Context {R : Type} {SR : Scalar R}.

(** ** Arrays with their shape

    A one-dimensional array is a list, of shape [(length l,)]. *)

(** Shape [(length rows, ncols)]. *)
Record array2 : Type := Array2
  { ncols : nat;
    rows : list (list R) }.

(** Shape [(length items, fst dims12, snd dims12)]. *)
Record array3 : Type := Array3
  { dims12 : nat * nat;
    items : list (list (list R)) }.

Definition wf_array2 (a : array2) : Prop :=
  Forall (fun r => length r = ncols a) (rows a).

Definition wf_array3 (a : array3) : Prop :=
  Forall (fun m => length m = fst (dims12 a) /\
                   Forall (fun r => length r = snd (dims12 a)) m) (items a).

(** The slices of an array along its leading axis. *)
Definition slices2 (a : array2) : list (list R) := rows a.

Definition slices3 (a : array3) : list array2 :=
  map (Array2 (snd (dims12 a))) (items a).

(** [x.transpose((1, 0, 2))] *)
Definition transpose102 (a : array3) : array3 :=
  {| dims12 := (length (items a), snd (dims12 a));
     items := transpose (fst (dims12 a)) (items a) |}.

(** The elements at position [t] of all the sequences of a batch-major
    array, as an array of shape [(B, nin)]. *)
Definition time_slice (a : array3) (t : nat) : array2 :=
  {| ncols := snd (dims12 a);
     rows := map (fun sequence => nth t sequence []) (items a) |}.

(** *** Broadcasting *)

(** The common size of two axes under numpy's broadcasting rule. *)
Definition bcast_dim (n m : nat) : result nat :=
  if n =? m then ret n
  else if n =? 1 then ret m
  else if m =? 1 then ret n
  else raise ShapeError.

(** An axis of size [1] stretched to size [n]. *)
Definition stretch {A} (n : nat) (l : list A) : list A :=
  match l with
  | [a] => repeat a n
  | _ => l
  end.

(** [u + v] on one-dimensional arrays. *)
Definition add1 (u v : list R) : result (list R) :=
  n <- bcast_dim (length u) (length v) ;;
  ret (zipWith add (stretch n u) (stretch n v)).

(** [u + v] on two-dimensional arrays. *)
Definition add2 (u v : array2) : result array2 :=
  c <- bcast_dim (ncols u) (ncols v) ;;
  r <- bcast_dim (length (rows u)) (length (rows v)) ;;
  ret {| ncols := c;
         rows := zipWith (fun a b => zipWith add (stretch c a) (stretch c b))
                   (stretch r (rows u)) (stretch r (rows v)) |}.

(** *** [jn.dot] *)

(** The product of a vector and a matrix, accumulated row by row:
    component [j] is [x0*w0j + (x1*w1j + (... + 0))]. *)
Definition vecmat (x : list R) (w : array2) : list R :=
  fold_right (fun xr acc => zipWith add (map (mul (fst xr)) (snd xr)) acc)
    (repeat zero (ncols w)) (combine x (rows w)).

(** [jn.dot(x, w)] for [x] of shape [(n,)]. *)
Definition dot1 (x : list R) (w : array2) : result (list R) :=
  if length x =? length (rows w) then ret (vecmat x w)
  else raise ShapeError.

(** [jn.dot(x, w)] for [x] of shape [(B, n)]. *)
Definition dot2 (x : array2) (w : array2) : result array2 :=
  if ncols x =? length (rows w)
  then ret {| ncols := ncols w; rows := map (fun r => vecmat r w) (rows x) |}
  else raise ShapeError.

(** *** [jn.concatenate], [jn.reshape], indexing *)

(** [jn.concatenate((x, state), axis=0)] on one-dimensional arrays. *)
Definition concatenate1 (x state : list R) : list R := x ++ state.

(** [jn.concatenate(output, axis=0)] on a list of two-dimensional arrays:
    it raises on the empty list and on arrays of different widths. *)
Definition concatenate2 (output : list array2) : result array2 :=
  match output with
  | [] => raise ValueError
  | a :: rest =>
      if forallb (fun a' => ncols a' =? ncols a) rest
      then ret {| ncols := ncols a; rows := concat (map rows output) |}
      else raise ShapeError
  end.

(** [jn.reshape(state, (1, nstate))] on a one-dimensional array. *)
Definition reshape_1n (state : list R) (nstate : nat) : result array2 :=
  if length state =? nstate then ret {| ncols := nstate; rows := [state] |}
  else raise ShapeError.

(** [a[i]] for [i] in [range(a.shape[0])]. *)
Definition index2 (a : array2) (i : nat) : result (list R) :=
  match nth_error (rows a) i with
  | Some r => ret r
  | None => raise IndexError
  end.

(** [a[-1]] *)
Definition index_last (a : array2) : result (list R) :=
  match rev (rows a) with
  | r :: _ => ret r
  | [] => raise IndexError
  end.


(** ** The affine transform and the layers built from it *)

(** What a cell or a layer computes works on arrays of one and of two
    dimensions alike. *)
Class Tensor (T : Type) : Type :=
  { dot : T -> array2 -> result T;
    plus : T -> T -> result T;
    plus_bias : T -> list R -> result T;
    apply : (R -> R) -> T -> T }.

#[export] Instance Tensor1 : Tensor (list R) :=
  {| dot := dot1;
     plus := add1;
     plus_bias := add1;
     apply := @map R R |}.

#[export] Instance Tensor2 : Tensor array2 :=
  {| dot := dot2;
     plus := add2;
     plus_bias := fun y bv => add2 y {| ncols := length bv; rows := [bv] |};
     apply := fun f a => {| ncols := ncols a; rows := map (map f) (rows a) |} |}.

(** Modelled from the spec: [objax.nn.Linear], the affine transform primitive
    of section 6, which owns a weight of shape [(nin, nout)] and, when the
    bias flag is set, a bias of shape [(nout,)]. *)
Record Linear : Type := MkLinear
  { w : array2;
    b : option (list R) }.

(** [Linear(nin, nout, use_bias)] built this object. *)
Definition is_Linear (nin nout : nat) (use_bias : bool) (self : Linear)
    : Prop :=
  length (rows (w self)) = nin /\
  ncols (w self) = nout /\
  wf_array2 (w self) /\
  match b self with
  | Some bv => use_bias = true /\ length bv = nout
  | None => use_bias = false
  end.

(** Modelled from the spec: applying the affine transform, [dot(x, w)] plus
    the bias when there is one; a dimension mismatch is a ShapeError
    (sections 4.1 and 7). *)
Definition Linear_call {T} {TT : Tensor T} (self : Linear) (x : T)
    : result T :=
  y <- dot x (w self) ;;
  match b self with
  | Some bv => plus_bias y bv
  | None => ret y
  end.

(** What the affine transform returns on a vector of the right length. *)
Definition affine (l : Linear) (x : list R) : list R :=
  match b l with
  | Some bv => zipWith add (vecmat x (w l)) bv
  | None => vecmat x (w l)
  end.

(** Modelled from the spec: the members of [objax.nn.Sequential], an affine
    transform or an elementwise activation function (sections 4.1.1, 6). *)
Inductive layer : Type :=
| Affine (l : Linear)
| Activation (f : R -> R).

Definition layer_call {T} {TT : Tensor T} (l : layer) (x : T) : result T :=
  match l with
  | Affine lin => Linear_call lin x
  | Activation f => ret (apply f x)
  end.

(** Modelled from the spec: [objax.nn.Sequential], the layers applied one
    after the other. *)
Definition Sequential_call {T} {TT : Tensor T} (layers : list layer) (x : T)
    : result T :=
  for_each layers layer_call x.

(** ** The cells *)

Record MyRnnCell : Type := MkMyRnnCell
  { op : list layer }.

(** [MyRnnCell(nin, nstate, activation)] built this object. *)
Definition is_MyRnnCell (nin nstate : nat) (self : MyRnnCell) : Prop :=
  exists l1 l2 act,
    op self = [Affine l1; Affine l2; Activation act] /\
    is_Linear (nin + nstate) nstate true l1 /\
    is_Linear nstate nstate true l2.

Definition MyRnnCell_call (state x : list R) : exec MyRnnCell (list R) :=
  self <- get ;;
  pure (Sequential_call (op self) (concatenate1 x state)).

(** The same method on arrays of two dimensions, as the driver [RNN] calls
    it on a batch: [jn.concatenate((x, state), axis=0)] then stacks the rows
    of [x] and of [state]. *)
Definition MyRnnCell_call_batch (state x : array2)
    : exec MyRnnCell array2 :=
  self <- get ;;
  xs <- pure (concatenate2 [x; state]) ;;
  pure (Sequential_call (op self) xs).

Record FactorizedRnnCell : Type := MkFactorizedRnnCell
  { win : Linear;
    wn : Linear;
    fact_activation : R -> R;
    nstate : nat;
    factor : option array2 }.

Definition set_factor (f : array2) (self : FactorizedRnnCell)
    : FactorizedRnnCell :=
  {| win := win self;
     wn := wn self;
     fact_activation := fact_activation self;
     nstate := nstate self;
     factor := Some f |}.

(** [FactorizedRnnCell(nin, nstate, activation)] built this object, which
    zero or more calls may have followed. *)
Definition is_FactorizedRnnCell (nin ns : nat) (self : FactorizedRnnCell)
    : Prop :=
  is_Linear nin ns false (win self) /\
  is_Linear ns ns true (wn self) /\
  nstate self = ns.

(** [self.factor[i]] *)
Definition read_factor (i : nat) : exec FactorizedRnnCell (list R) :=
  self <- get ;;
  match factor self with
  | Some f => pure (index2 f i)
  | None => raise AttributeError
  end.

(** The body of the loop of [FactorizedRnnCell.__call__]; the loop variables
    are [state] and [output]. *)
Definition FactorizedRnnCell_step (i : nat) (vars : list R * list array2)
    : exec FactorizedRnnCell (list R * list array2) :=
  let (state, output) := vars in
  self <- get ;;
  h <- pure (Linear_call (wn self) state) ;;
  fi <- read_factor i ;;
  s <- pure (plus h fi) ;;
  let state := apply (fact_activation self) s in
  output_i <- pure (reshape_1n state (nstate self)) ;;
  ret (state, output ++ [output_i]).

Definition FactorizedRnnCell_call (state : list R) (x : array2)
    : exec FactorizedRnnCell array2 :=
  self <- get ;;
  f <- pure (Linear_call (win self) x) ;;
  put (set_factor f self) ;;
  vars <- for_each (seq 0 (length (rows x))) FactorizedRnnCell_step
            (state, []) ;;
  let (state, output) := vars : list R * list array2 in
  outputs <- pure (concatenate2 output) ;;
  self <- get ;;
  pure (reshape_1n state (nstate self)).

Record DDLRnnCell : Type := MkDDLRnnCell
  { wxh : Linear;
    whh : Linear;
    ddl_activation : R -> R }.

(** [DDLRnnCell(nin, nstate, activation)] built this object. *)
Definition is_DDLRnnCell (nin ns : nat) (self : DDLRnnCell) : Prop :=
  is_Linear nin ns false (wxh self) /\
  is_Linear ns ns true (whh self).

Definition DDLRnnCell_call {T} {TT : Tensor T} (state x : T)
    : exec DDLRnnCell T :=
  self <- get ;;
  h <- pure (Linear_call (whh self) state) ;;
  i <- pure (Linear_call (wxh self) x) ;;
  s <- pure (plus h i) ;;
  ret (apply (ddl_activation self) s).

(** What a successful step of the two-weight cell returns on vectors. *)
Definition ddl_step (self : DDLRnnCell) (state x : list R) : list R :=
  map (ddl_activation self)
    (zipWith add (affine (whh self) state) (affine (wxh self) x)).

(** The attributes of a factorized cell that its constructor sets: all but
    the factor cache. *)
Definition parameters (self : FactorizedRnnCell)
    : Linear * Linear * (R -> R) * nat :=
  (win self, wn self, fact_activation self, nstate self).

(** The two-weight cell that has the weights of a factorized cell. *)
Definition canonical (self : FactorizedRnnCell) : DDLRnnCell :=
  {| wxh := win self;
     whh := wn self;
     ddl_activation := fact_activation self |}.

(** The two-weight cell applied to the elements of a sequence in order,
    the state threaded from each call to the next. *)
Definition step_by_step (xs : list (list R)) (state : list R)
    : exec DDLRnnCell (list R) :=
  for_each xs (fun x_t s => DDLRnnCell_call s x_t) state.

(** The update of the two-weight cell as the specification words it,
    component by component: [activation(W_hh * state + b + W_xh * input)],
    the products accumulated in the order of [vecmat]. *)
Definition dot_component (x : list R) (m : array2) (j : nat) : R :=
  fold_right (fun xr acc => add (mul (fst xr) (nth j (snd xr) zero)) acc)
    zero (combine x (rows m)).

Definition bias_component (l : Linear) (j : nat) : R :=
  match b l with
  | Some bv => nth j bv zero
  | None => zero
  end.

Definition elman_component (self : DDLRnnCell) (state x : list R) (j : nat)
    : R :=
  ddl_activation self
    (add (add (dot_component state (w (whh self)) j)
              (bias_component (whh self) j))
         (dot_component x (w (wxh self)) j)).

(** ** The drivers *)

(** Modelled from the spec: [objax.functional.scan], the sequential-fold
    primitive of section 6: from a step function, an initial state and a
    sequence it returns the final state and the ordered sequence of the
    outputs of the steps, the state threaded from each step to the next. *)
Fixpoint scan {W S X O} (f : S -> X -> exec W (S * O)) (init : S)
    (xs : list X) : exec W (S * list O) :=
  match xs with
  | [] => ret (init, [])
  | x :: xs' =>
      so <- f init x ;;
      rest <- scan f (fst so) xs' ;;
      ret (fst rest, snd so :: snd rest)
  end.

(** Modelled from the spec: [objax.Vectorize(f, batch_axis=(0, 0))], the
    vectorizing transform of section 6: [f] applied to each batch slice of the
    two arguments on its own, the results restacked along the batch axis; the
    two batch axes must have the same size. *)
Definition Vectorize {W O S} (f : array2 -> list R -> exec W (O * S))
    (x : array3) (s : array2) : exec W (list O * list S) :=
  if length (items x) =? length (rows s)
  then
    ys <- mapM (fun xs => f (fst xs) (snd xs))
            (combine (slices3 x) (slices2 s)) ;;
    ret (split ys)
  else raise ShapeError.

(** The three drivers have the same constructor: it stores the cell and the
    output layer.  Both are callables; [W] is the store of the objects they
    own, [S] the state, [X] what the cell takes as input, [C] what the cell
    returns, [O] the output. *)
Record Driver (W S X C O : Type) : Type := MkDriver
  { cell : S -> X -> exec W C;
    output_layer : C -> exec W O }.

Section Drivers.

Context {W S O : Type}.

Definition RNN_single {X} (self : Driver W S X S O) (state_i : S) (x_i : X)
    : exec W (S * O) :=
  next_state <- cell self state_i x_i ;;
  next_output <- output_layer self next_state ;;
  ret (next_state, next_output).

Definition RNN_call (self : Driver W S array2 S O) (x : array3) (state : S)
    : exec W (list O * S) :=
  fo <- scan (RNN_single self) state (slices3 (transpose102 x)) ;;
  let (final_state, output) := fo : S * list O in
  ret (output, final_state).

Definition VectorizedRNN_single {X} (self : Driver W S X S O) (state_i : S)
    (x_i : X) : exec W (S * O) :=
  next_state <- cell self state_i x_i ;;
  next_output <- output_layer self next_state ;;
  ret (next_state, next_output).

Definition VectorizedRNN_call (self : Driver W S (list R) S O) (x : array2)
    (state : S) : exec W (list O * S) :=
  fo <- scan (VectorizedRNN_single self) state (slices2 x) ;;
  let (final_state, output) := fo : S * list O in
  ret (output, final_state).

Definition FactorizedRNN_call {X} (self : Driver W S X array2 O) (x : X)
    (state : S) : exec W (O * list R) :=
  out <- cell self state x ;;
  output <- output_layer self out ;;
  last <- pure (index_last out) ;;
  ret (output, last).

(** The sequential driver as the specification words it: the sequence is
    presented time axis first and the driver folds over it as presented,
    reordering nothing. *)
Definition RNN_call_as_presented (self : Driver W S array2 S O) (x : array3)
    (state : S) : exec W (list O * S) :=
  fo <- scan (RNN_single self) state (slices3 x) ;;
  let (final_state, output) := fo : S * list O in
  ret (output, final_state).

End Drivers.

(** A factorized driver whose cell is the factorized cell that the store
    holds at [getter], whatever its output layer. *)
Definition factorized_driver {W O} (getter : W -> FactorizedRnnCell)
    (setter : FactorizedRnnCell -> W -> W) (layer : array2 -> exec W O)
    : Driver W (list R) array2 array2 O :=
  {| cell := fun state x =>
       zoom getter setter (FactorizedRnnCell_call state x);
     output_layer := layer |}.

(** ** The objects of the example at the end of the file *)

(** [rnn_cell], [out_layer] and [factorized_cell]: the two recurrent drivers
    share [rnn_cell], all three drivers share [out_layer]. *)
Record objects : Type := MkObjects
  { rnn_cell : DDLRnnCell;
    out_layer : Linear;
    factorized_cell : FactorizedRnnCell }.

Definition set_rnn_cell (c : DDLRnnCell) (o : objects) : objects :=
  {| rnn_cell := c;
     out_layer := out_layer o;
     factorized_cell := factorized_cell o |}.

Definition set_factorized_cell (c : FactorizedRnnCell) (o : objects)
    : objects :=
  {| rnn_cell := rnn_cell o;
     out_layer := out_layer o;
     factorized_cell := c |}.

(** What [VectorizedRNN(rnn_cell, out_layer)] returns on one sequence of
    well-shaped elements: the outputs of the steps and the final state. *)
Fixpoint sequence_run (d : DDLRnnCell) (ol : Linear) (xs : list (list R))
    (s : list R) : list (list R) * list R :=
  match xs with
  | [] => ([], s)
  | x :: xs' =>
      let s' := ddl_step d s x in
      let r := sequence_run d ol xs' s' in
      (affine ol s' :: fst r, snd r)
  end.

(** What the scan of [RNN(rnn_cell, out_layer)] returns on a time-major
    batch: step [t] works on the [t]-th elements of all the sequences. *)
Fixpoint batch_run (d : DDLRnnCell) (ol : Linear)
    (xts : list (list (list R))) (ss : list (list R))
    : list (list (list R)) * list (list R) :=
  match xts with
  | [] => ([], ss)
  | xt :: xts' =>
      let ss' := zipWith (ddl_step d) ss xt in
      let r := batch_run d ol xts' ss' in
      (map (affine ol) ss' :: fst r, snd r)
  end.

(** What the constructors of the three objects set. *)
Definition learned (o : objects)
    : DDLRnnCell * Linear * (Linear * Linear * (R -> R) * nat) :=
  (rnn_cell o, out_layer o, parameters (factorized_cell o)).

(** [out_layer(state)] *)
Definition out_layer_call {T} {TT : Tensor T} (state : T) : exec objects T :=
  o <- get ;;
  pure (Linear_call (out_layer o) state).

(** [RNN(rnn_cell, out_layer)], whose steps work on a whole batch. *)
Definition r_RNN : Driver objects array2 array2 array2 array2 :=
  {| cell := fun state x =>
       zoom rnn_cell set_rnn_cell (DDLRnnCell_call state x);
     output_layer := out_layer_call |}.

(** [VectorizedRNN(rnn_cell, out_layer)], whose steps work on one sequence. *)
Definition r_VectorizedRNN : Driver objects (list R) (list R) (list R) (list R) :=
  {| cell := fun state x =>
       zoom rnn_cell set_rnn_cell (DDLRnnCell_call state x);
     output_layer := out_layer_call |}.

(** [rnn_vec = objax.Vectorize(r, batch_axis=(0, 0))] *)
Definition rnn_vec (x : array3) (s : array2)
    : exec objects (list (list (list R)) * list (list R)) :=
  Vectorize (VectorizedRNN_call r_VectorizedRNN) x s.

(** [f = FactorizedRNN(factorized_cell, out_layer)] *)
Definition f_FactorizedRNN
    : Driver objects (list R) array2 array2 array2 :=
  {| cell := fun state x =>
       zoom factorized_cell set_factorized_cell
         (FactorizedRnnCell_call state x);
     output_layer := out_layer_call |}.

(** What a recurrent driver returns on one sequence when each call of its
    cell returns [f state x] and each call of its output layer [g state]:
    the outputs of the steps and the final state. *)
Fixpoint sequence_run_with (f : list R -> list R -> list R)
    (g : list R -> list R) (xs : list (list R)) (s : list R)
    : list (list R) * list R :=
  match xs with
  | [] => ([], s)
  | x :: xs' =>
      let s' := f s x in
      let r := sequence_run_with f g xs' s' in
      (g s' :: fst r, snd r)
  end.

(** The same on a time-major batch, each step working on every row. *)
Fixpoint batch_run_with (f : list R -> list R -> list R)
    (g : list R -> list R) (xts : list (list (list R)))
    (ss : list (list R)) : list (list (list R)) * list (list R) :=
  match xts with
  | [] => ([], ss)
  | xt :: xts' =>
      let ss' := zipWith f ss xt in
      let r := batch_run_with f g xts' ss' in
      (map g ss' :: fst r, snd r)
  end.

(** The same cell and output layer called on vectors, as [VectorizedRNN]
    calls them ([single]), and on a batch, as [RNN] calls them ([batch]), act
    on the batch row by row, on the store [w] and for the dimensions [nin],
    [nstate], [nout]: on a state of length [nstate] and an input of length
    [nin] the cell returns a state of length [nstate], and on [B] such states
    and [B] such inputs it returns the [B] states that it returns on each
    pair; the output layer likewise; no call changes the store. *)
Definition acts_row_by_row {W} (nin ns nout : nat)
    (single : Driver W (list R) (list R) (list R) (list R))
    (batch : Driver W array2 array2 array2 array2) (w : W) : Prop :=
  exists (f : list R -> list R -> list R) (g : list R -> list R),
    (forall s x, length s = ns -> length x = nin ->
       run (cell single s x) w = (Ok (f s x), w) /\ length (f s x) = ns) /\
    (forall s, length s = ns ->
       run (output_layer single s) w = (Ok (g s), w)) /\
    (forall ss xs, length ss = length xs ->
       Forall (fun s => length s = ns) ss ->
       Forall (fun x => length x = nin) xs ->
       run (cell batch {| ncols := ns; rows := ss |}
              {| ncols := nin; rows := xs |}) w =
       (Ok {| ncols := ns; rows := zipWith f ss xs |}, w)) /\
    (forall ss, Forall (fun s => length s = ns) ss ->
       run (output_layer batch {| ncols := ns; rows := ss |}) w =
       (Ok {| ncols := nout; rows := map g ss |}, w)).

(** [VectorizedRNN(MyRnnCell(nin, nstate), lambda s: s)] and
    [RNN(MyRnnCell(nin, nstate), lambda s: s)] on the same cell object. *)
Definition my_VectorizedRNN
    : Driver MyRnnCell (list R) (list R) (list R) (list R) :=
  {| cell := MyRnnCell_call; output_layer := fun s => ret s |}.

Definition my_RNN : Driver MyRnnCell array2 array2 array2 array2 :=
  {| cell := MyRnnCell_call_batch; output_layer := fun s => ret s |}.

(** The factorized part of the script at the end of the file:
    [out = factorized_cell(s0, x0)], [out2 = out_layer(out)] and
    [y5 = f(x0, s0)], one after the other on the same objects. *)
Definition factorized_script (x0 : array2) (s0 : list R)
    : exec objects (array2 * array2 * (array2 * list R)) :=
  out <- zoom factorized_cell set_factorized_cell
           (FactorizedRnnCell_call s0 x0) ;;
  out2 <- out_layer_call out ;;
  y5 <- FactorizedRNN_call f_FactorizedRNN x0 s0 ;;
  ret (out, out2, y5).

End Model.

Arguments array2 R : clear implicits.
Arguments array3 R : clear implicits.
Arguments Linear R : clear implicits.
Arguments layer R : clear implicits.
Arguments MyRnnCell R : clear implicits.
Arguments FactorizedRnnCell R : clear implicits.
Arguments DDLRnnCell R : clear implicits.
Arguments objects R : clear implicits.

(** ** Concrete cells, layers and inputs, over the integers *)

Module Sample.

Open Scope Z_scope.

(** An activation function on integers: the rectifier. *)
Definition relu (z : Z) : Z := Z.max 0 z.

(** Weights for [nin = 2], [nstate = 2], [nout = 1]. *)
Definition w_xh : array2 Z := {| ncols := 2; rows := [[1; 2]; [3; -4]] |}.
Definition w_hh : array2 Z := {| ncols := 2; rows := [[1; 0]; [-1; 1]] |}.
Definition b_hh : list Z := [1; -1].

Definition ddl : DDLRnnCell Z :=
  {| wxh := {| w := w_xh; b := None |};
     whh := {| w := w_hh; b := Some b_hh |};
     ddl_activation := relu |}.

Definition factorized : FactorizedRnnCell Z :=
  {| win := {| w := w_xh; b := None |};
     wn := {| w := w_hh; b := Some b_hh |};
     fact_activation := relu;
     nstate := 2;
     factor := None |}.

Definition out : Linear Z :=
  {| w := {| ncols := 1; rows := [[1]; [2]] |}; b := Some [5] |}.

Definition store : objects Z :=
  {| rnn_cell := ddl; out_layer := out; factorized_cell := factorized |}.

(** The same objects after some call filled the factor cache. *)
Definition store_used : objects Z :=
  {| rnn_cell := ddl;
     out_layer := out;
     factorized_cell := set_factor {| ncols := 2; rows := [[7; 7]] |}
                          factorized |}.

(** One sequence of [T = 3] elements and its initial state. *)
Definition xs : array2 Z := {| ncols := 2; rows := [[1; 0]; [0; 1]; [2; 1]] |}.
Definition state0 : list Z := [0; 1].

(** A sequence of no element. *)
Definition xs_empty : array2 Z := {| ncols := 2; rows := [] |}.

(** A batch of [B = 2] sequences of [T = 2] elements, batch-major, and the
    initial states. *)
Definition batch : array3 Z :=
  {| dims12 := (2%nat, 2%nat);
     items := [[[1; 0]; [0; 1]]; [[2; 1]; [1; 1]]] |}.
Definition states : array2 Z := {| ncols := 2; rows := [[0; 0]; [1; 1]] |}.

(** The simple cell for [nin = 3], [nstate = 2]. *)
Definition my : MyRnnCell Z :=
  {| op := [Affine {| w := {| ncols := 2;
                              rows := [[1; 0]; [0; 1]; [1; 1]; [2; 0]; [0; 2]] |};
                      b := Some [0; 1] |};
            Affine {| w := w_hh; b := Some b_hh |};
            Activation relu] |}.

(** The three cells for [nin = 3], [nstate = 10], all weights [1]. *)
Definition ones (n m : nat) : array2 Z :=
  {| ncols := m; rows := repeat (repeat 1 m) n |}.

Definition my_3_10 : MyRnnCell Z :=
  {| op := [Affine {| w := ones 13 10; b := Some (repeat 0 10) |};
            Affine {| w := ones 10 10; b := Some (repeat 0 10) |};
            Activation relu] |}.

Definition ddl_3_10 : DDLRnnCell Z :=
  {| wxh := {| w := ones 3 10; b := None |};
     whh := {| w := ones 10 10; b := Some (repeat 0 10) |};
     ddl_activation := relu |}.

Definition factorized_3_10 : FactorizedRnnCell Z :=
  {| win := {| w := ones 3 10; b := None |};
     wn := {| w := ones 10 10; b := Some (repeat 0 10) |};
     fact_activation := relu;
     nstate := 10;
     factor := None |}.

(** Objects for [nin = 1], [nstate = 1], [nout = 1] and a square batch, on
    which reading the leading axis as time and reading it as the batch give
    different results. *)
Definition unit_weights : array2 Z := {| ncols := 1; rows := [[1]] |}.

Definition store_1 : objects Z :=
  {| rnn_cell := {| wxh := {| w := unit_weights; b := None |};
                    whh := {| w := unit_weights; b := Some [0] |};
                    ddl_activation := fun z => z |};
     out_layer := {| w := unit_weights; b := Some [0] |};
     factorized_cell := {| win := {| w := unit_weights; b := None |};
                           wn := {| w := unit_weights; b := Some [0] |};
                           fact_activation := fun z => z;
                           nstate := 1;
                           factor := None |} |}.

Definition batch_1 : array3 Z :=
  {| dims12 := (2%nat, 1%nat); items := [[[1]; [2]]; [[3]; [4]]] |}.
Definition states_1 : array2 Z := {| ncols := 1; rows := [[0]; [0]] |}.

(** A batch of one sequence of one element for the simple cell [my]
    ([nin = 3], [nstate = 2]), and its initial state. *)
Definition batch_my : array3 Z :=
  {| dims12 := (1%nat, 3%nat); items := [[[1; 2; 3]]] |}.
Definition states_my : array2 Z := {| ncols := 2; rows := [[0; 1]] |}.

End Sample.

(** * Properties *)

(** ** Running a method *)

Section Run.

Context {W : Type}.

Lemma run_ret {A} (a : A) (w : W) : run (ret a) w = (Ok a, w).
Proof. reflexivity. Qed.

Lemma run_raise {A} (e : error) (w : W) : run (raise e : exec W A) w = (Err e, w).
Proof. reflexivity. Qed.

Lemma run_get (w : W) : run get w = (Ok w, w).
Proof. reflexivity. Qed.

Lemma run_put (w' w : W) : run (put w') w = (Ok tt, w').
Proof. reflexivity. Qed.

Lemma run_pure {A} (r : result A) (w : W) : run (pure r) w = (r, w).
Proof. destruct r; reflexivity. Qed.

Lemma run_bind {A B} (m : exec W A) (k : A -> exec W B) (w : W) :
  run (bind m k) w =
  match run m w with
  | (Ok a, w') => run (k a) w'
  | (Err e, w') => (Err e, w')
  end.
Proof.
  unfold run. simpl. destruct (runState (unEitherT m) w) as [[e | a] w']; reflexivity.
Qed.

Lemma run_zoom {C A} (getter : W -> C) (setter : C -> W -> W) (m : exec C A) (w : W) :
  run (zoom getter setter m) w =
  (fst (run m (getter w)), setter (snd (run m (getter w))) w).
Proof.
  unfold zoom. rewrite run_bind, run_get.
  destruct (run m (getter w)) as [r c'].
  rewrite run_bind, run_put, run_pure. reflexivity.
Qed.

End Run.

(** ** Lists *)

Lemma zipWith_length {A B C} (f : A -> B -> C) (l1 : list A) (l2 : list B) :
  length (zipWith f l1 l2) = Nat.min (length l1) (length l2).
Proof.
  revert l2. induction l1 as [| a l1 IH]; intros [| c l2]; simpl; auto.
Qed.

Lemma zipWith_repeat_r {A B C} (f : A -> B -> C) (l : list A) (c : B) :
  zipWith f l (repeat c (length l)) = map (fun a => f a c) l.
Proof.
  induction l as [| a l IH]; simpl; [reflexivity | now rewrite IH].
Qed.

Lemma zipWith_nth {A B C} (f : A -> B -> C) (l1 : list A) (l2 : list B)
    (j : nat) (da : A) (db : B) (dc : C) :
  j < length l1 -> j < length l2 ->
  nth j (zipWith f l1 l2) dc = f (nth j l1 da) (nth j l2 db).
Proof.
  revert l2 j. induction l1 as [| a l1 IH]; intros [| c l2] [| j]; simpl;
    intros H1 H2; try lia; [reflexivity | apply IH; lia].
Qed.

Lemma stretch_same {A} (n : nat) (l : list A) :
  length l = n -> stretch n l = l.
Proof.
  intros <-. destruct l as [| a [| a' l]]; reflexivity.
Qed.

Lemma stretch_singleton {A} (n : nat) (a : A) : stretch n [a] = repeat a n.
Proof. reflexivity. Qed.

Lemma zipWith_map {A A' B B' C} (f : A' -> B' -> C) (g : A -> A')
    (h : B -> B') (l1 : list A) (l2 : list B) :
  zipWith f (map g l1) (map h l2) = zipWith (fun a c => f (g a) (h c)) l1 l2.
Proof.
  revert l2. induction l1 as [| a l1 IH]; intros [| c l2]; simpl; auto.
  now rewrite IH.
Qed.

Lemma map_zipWith {A B C D} (g : C -> D) (f : A -> B -> C) (l1 : list A)
    (l2 : list B) :
  map g (zipWith f l1 l2) = zipWith (fun a c => g (f a c)) l1 l2.
Proof.
  revert l2. induction l1 as [| a l1 IH]; intros [| c l2]; simpl; auto.
  now rewrite IH.
Qed.

Lemma zipWith_ext_in {A B C} (f g : A -> B -> C) (l1 : list A) (l2 : list B) :
  (forall a c, In a l1 -> In c l2 -> f a c = g a c) ->
  zipWith f l1 l2 = zipWith g l1 l2.
Proof.
  revert l2. induction l1 as [| a l1 IH]; intros [| c l2] H; simpl; auto.
  f_equal; [apply H; now left | apply IH; intros; apply H; now right].
Qed.

Section ArrayFacts.

Context {R : Type} {SR : Scalar R}.

Implicit Types (x u v : list R) (a : array2 R) (l : Linear R).

(** ** Broadcasting and [jn.dot] *)

Lemma bcast_dim_same (n : nat) : bcast_dim n n = Ok n.
Proof. unfold bcast_dim. now rewrite Nat.eqb_refl. Qed.

Lemma bcast_dim_one_r (n : nat) : bcast_dim n 1 = Ok n.
Proof.
  unfold bcast_dim. destruct (Nat.eqb_spec n 1) as [-> | Hn]; [reflexivity |].
  reflexivity.
Qed.

Lemma add1_same_length u v :
  length u = length v -> add1 u v = Ok (zipWith add u v).
Proof.
  intros H. unfold add1. rewrite H, bcast_dim_same. simpl.
  now rewrite !stretch_same.
Qed.

Lemma add2_same_shape (c d : array2 R) :
  ncols c = ncols d -> length (rows c) = length (rows d) ->
  wf_array2 c -> wf_array2 d ->
  add2 c d =
  Ok {| ncols := ncols c; rows := zipWith (zipWith add) (rows c) (rows d) |}.
Proof.
  unfold wf_array2. intros Hc Hr Wc Wd. unfold add2.
  rewrite <- Hc, <- Hr, !bcast_dim_same. simpl.
  rewrite !stretch_same by congruence. do 2 f_equal.
  apply zipWith_ext_in. intros r1 r2 H1 H2.
  rewrite Forall_forall in Wc, Wd.
  rewrite !stretch_same; [reflexivity | |]; auto.
  rewrite Hc. auto.
Qed.

Lemma vecmat_length x a : wf_array2 a -> length (vecmat x a) = ncols a.
Proof.
  unfold vecmat, wf_array2. generalize (rows a) as rs. intros rs. revert x.
  induction rs as [| r rs IH]; intros x Hwf.
  - destruct x; simpl; apply repeat_length.
  - destruct x as [| x0 x]; simpl; [apply repeat_length |].
    inversion Hwf as [| ? ? Hr Hrs]; subst.
    rewrite zipWith_length, length_map, Hr, IH by assumption. apply Nat.min_id.
Qed.

Lemma affine_length nin nout ub l x :
  is_Linear nin nout ub l -> length (affine l x) = nout.
Proof.
  intros (_ & Hc & Hwf & Hb). unfold affine. destruct (b l) as [bv |].
  - destruct Hb as [_ Hb]. rewrite zipWith_length, vecmat_length, Hc, Hb by assumption.
    apply Nat.min_id.
  - now rewrite vecmat_length.
Qed.

Lemma Linear_call_vec nin nout ub l x :
  is_Linear nin nout ub l -> length x = nin ->
  Linear_call l x = Ok (affine l x).
Proof.
  intros (Hr & Hc & Hwf & Hb) Hx. unfold Linear_call, affine. simpl. unfold dot1.
  rewrite Hx, Hr, Nat.eqb_refl. simpl. destruct (b l) as [bv |]; [| reflexivity].
  apply add1_same_length. rewrite vecmat_length by assumption. destruct Hb. congruence.
Qed.

Lemma Linear_call_vec_mismatch l x :
  length x <> length (rows (w l)) -> Linear_call l x = Err ShapeError.
Proof.
  intros Hx. unfold Linear_call. simpl. unfold dot1.
  destruct (Nat.eqb_spec (length x) (length (rows (w l)))); [contradiction | reflexivity].
Qed.

Lemma Linear_call_array2 nin nout ub l a :
  is_Linear nin nout ub l -> ncols a = nin ->
  Linear_call l a = Ok {| ncols := nout; rows := map (affine l) (rows a) |}.
Proof.
  intros (Hr & Hc & Hwf & Hb) Ha. unfold Linear_call, affine. simpl. unfold dot2.
  rewrite Ha, Hr, Nat.eqb_refl. simpl. destruct (b l) as [bv |]; [| now rewrite Hc].
  destruct Hb as [_ Hb]. unfold add2. simpl.
  rewrite Hc, Hb, bcast_dim_same, length_map, bcast_dim_one_r. simpl.
  rewrite stretch_same by apply length_map. rewrite <- (length_map (fun r => vecmat r (w l))).
  f_equal. f_equal.
  generalize (rows a) as rs. induction rs as [| r rs IH]; simpl; [reflexivity |].
  rewrite IH. f_equal.
  rewrite !stretch_same; [reflexivity | assumption |].
  rewrite vecmat_length by assumption. assumption.
Qed.

Lemma Linear_call_array2_mismatch l a :
  ncols a <> length (rows (w l)) -> Linear_call l a = Err ShapeError.
Proof.
  intros Ha. unfold Linear_call. simpl. unfold dot2.
  destruct (Nat.eqb_spec (ncols a) (length (rows (w l)))); [contradiction | reflexivity].
Qed.

End ArrayFacts.

Create Rewrite HintDb run.

#[export] Hint Rewrite @run_ret @run_raise @run_get @run_put @run_pure
  @run_bind @run_zoom : run.

(** Unfolds a method one level and runs it as far as it is known. *)
Ltac run_method := autorewrite with run; simpl.

Section CellFacts.

Context {R : Type} {SR : Scalar R}.

Implicit Types (x state : list R) (a : array2 R).

(** ** The two-weight cell *)

Lemma ddl_step_length nin ns (self : DDLRnnCell R) state x :
  is_DDLRnnCell nin ns self -> length (ddl_step self state x) = ns.
Proof.
  intros [Hx Hh]. unfold ddl_step.
  rewrite length_map, zipWith_length,
    (affine_length _ Hh), (affine_length _ Hx). apply Nat.min_id.
Qed.

Lemma DDLRnnCell_call_vec nin ns (self : DDLRnnCell R) state x :
  is_DDLRnnCell nin ns self -> length state = ns -> length x = nin ->
  run (DDLRnnCell_call state x) self = (Ok (ddl_step self state x), self).
Proof.
  intros [Hx Hh] Hs Hi. unfold DDLRnnCell_call. run_method.
  rewrite (Linear_call_vec _ Hh Hs). run_method.
  rewrite (Linear_call_vec _ Hx Hi). run_method.
  rewrite add1_same_length
    by now rewrite (affine_length _ Hh), (affine_length _ Hx).
  reflexivity.
Qed.

Lemma DDLRnnCell_call_array2 nin ns (self : DDLRnnCell R) (state x : array2 R) :
  is_DDLRnnCell nin ns self -> ncols state = ns -> ncols x = nin ->
  length (rows state) = length (rows x) ->
  run (DDLRnnCell_call state x) self =
  (Ok {| ncols := ns;
         rows := zipWith (ddl_step self) (rows state) (rows x) |}, self).
Proof.
  intros [Hx Hh] Hs Hi Hlen. unfold DDLRnnCell_call. run_method.
  rewrite (Linear_call_array2 _ Hh Hs). run_method.
  rewrite (Linear_call_array2 _ Hx Hi). run_method.
  rewrite add2_same_shape; simpl; rewrite ?length_map; try easy.
  - run_method. do 3 f_equal. rewrite zipWith_map, map_zipWith. reflexivity.
  - apply Forall_map, Forall_forall. intros r _. apply (affine_length _ Hh).
  - apply Forall_map, Forall_forall. intros r _. apply (affine_length _ Hx).
Qed.

Lemma vecmat_nth x a j :
  wf_array2 a -> j < ncols a ->
  nth j (vecmat x a) zero = dot_component x a j.
Proof.
  unfold vecmat, dot_component, wf_array2.
  generalize (rows a) as rs. intros rs. revert x.
  induction rs as [| r rs IH]; intros x Hwf Hj.
  - destruct x; simpl; apply nth_repeat_lt; assumption.
  - destruct x as [| x0 x]; simpl; [now apply nth_repeat_lt |].
    inversion Hwf as [| ? ? Hr Hrs]; subst.
    rewrite (zipWith_nth _ _ _ zero zero).
    + rewrite IH by assumption. f_equal.
      rewrite <- (map_nth (mul x0)). apply nth_indep. rewrite length_map. lia.
    + rewrite length_map. lia.
    + change (j < length (vecmat x {| ncols := ncols a; rows := rs |})).
      rewrite vecmat_length; [assumption | exact Hrs].
Qed.

End CellFacts.

Section FactorizedFacts.

Context {R : Type} {SR : Scalar R}.

Implicit Types (x : array2 R) (state : list R) (self : FactorizedRnnCell R).

(** ** The factorized cell *)

Lemma canonical_is_DDLRnnCell nin ns self :
  is_FactorizedRnnCell nin ns self -> is_DDLRnnCell nin ns (canonical self).
Proof. intros (Hi & Hn & _). split; assumption. Qed.

Lemma step_by_step_run nin ns (d : DDLRnnCell R) (xs : list (list R)) state :
  is_DDLRnnCell nin ns d -> Forall (fun r => length r = nin) xs ->
  length state = ns ->
  run (step_by_step xs state) d = (Ok (fold_left (ddl_step d) xs state), d).
Proof.
  intros Hd Hxs. revert state. unfold step_by_step.
  induction Hxs as [| x0 xs Hx0 Hxs IH]; intros state Hs; cbn [for_each].
  - now rewrite run_ret.
  - rewrite run_bind, (DDLRnnCell_call_vec _ _ Hd Hs Hx0).
    apply IH. apply (ddl_step_length _ _ Hd).
Qed.

Lemma fold_ddl_step_length nin ns (d : DDLRnnCell R) (xs : list (list R)) state :
  is_DDLRnnCell nin ns d -> length state = ns ->
  length (fold_left (ddl_step d) xs state) = ns.
Proof.
  intros Hd. revert state. induction xs as [| x0 xs IH]; intros state Hs;
    simpl; [assumption |]. apply IH, (ddl_step_length _ _ Hd).
Qed.

(** One turn of the loop, once [self.factor] holds the projections. *)
Lemma FactorizedRnnCell_step_run nin ns self (f : array2 R) i fi state
    (output : list (array2 R)) :
  is_FactorizedRnnCell nin ns self -> factor self = Some f ->
  nth_error (rows f) i = Some fi -> length fi = ns -> length state = ns ->
  run (FactorizedRnnCell_step i (state, output)) self =
  (Ok (map (fact_activation self) (zipWith add (affine (wn self) state) fi),
       output ++ [ {| ncols := ns;
                      rows := [map (fact_activation self)
                                 (zipWith add (affine (wn self) state) fi)] |} ]),
   self).
Proof.
  intros (Hi & Hn & Hns) Hf Hnth Hfi Hs. unfold FactorizedRnnCell_step.
  rewrite run_bind, run_get, run_bind, run_pure, (Linear_call_vec _ Hn Hs).
  unfold read_factor. rewrite !run_bind, run_get, Hf. unfold index2.
  rewrite Hnth. cbn [ret Monad_result Monad_either]. rewrite run_pure.
  cbn [plus Tensor1]. rewrite run_bind, run_pure.
  rewrite add1_same_length by now rewrite (affine_length _ Hn).
  cbn [apply Tensor1]. rewrite run_bind, run_pure. unfold reshape_1n.
  rewrite length_map, zipWith_length, (affine_length _ Hn), Hfi, Nat.min_id,
    Hns, Nat.eqb_refl.
  cbn [ret Monad_result Monad_either]. now rewrite run_ret.
Qed.

(** The loop from turn [length pre] on. *)
Lemma FactorizedRnnCell_loop_run nin ns self (f : array2 R)
    (pre : list (list R)) (xs : list (list R)) state
    (output : list (array2 R)) :
  is_FactorizedRnnCell nin ns self -> factor self = Some f ->
  rows f = pre ++ map (affine (win self)) xs ->
  length state = ns -> Forall (fun o => ncols o = ns) output ->
  exists output',
    run (for_each (seq (length pre) (length xs)) FactorizedRnnCell_step
           (state, output)) self =
    (Ok (fold_left (ddl_step (canonical self)) xs state, output'), self) /\
    Forall (fun o => ncols o = ns) output' /\
    length output' = length output + length xs.
Proof.
  intros Hself Hf. revert pre state output.
  induction xs as [| x0 xs IH]; intros pre state output Hrows Hs Hout.
  - exists output. cbn [for_each length seq]. rewrite run_ret.
    repeat split; [assumption | simpl; lia].
  - cbn [for_each length seq].
    assert (Hfi : length (affine (win self) x0) = ns)
      by (destruct Hself as (Hi & _); apply (affine_length _ Hi)).
    assert (Hnth : nth_error (rows f) (length pre) = Some (affine (win self) x0)).
    { rewrite Hrows, nth_error_app2, Nat.sub_diag by lia. reflexivity. }
    destruct (IH (pre ++ [affine (win self) x0])
                (ddl_step (canonical self) state x0)
                (output ++ [ {| ncols := ns;
                                rows := [ddl_step (canonical self) state x0] |} ]))
      as (output' & Hrun & Hall & Hlen).
    + rewrite Hrows, <- app_assoc. reflexivity.
    + apply (ddl_step_length _ _ (canonical_is_DDLRnnCell Hself)).
    + apply Forall_app. split; [assumption | repeat constructor].
    + exists output'. rewrite run_bind,
        (FactorizedRnnCell_step_run _ state output Hself Hf Hnth Hfi Hs).
      rewrite length_app, Nat.add_1_r in Hrun. split; [exact Hrun |].
      split; [assumption |]. rewrite Hlen, length_app. simpl. lia.
Qed.

Lemma concatenate2_ok ns (output : list (array2 R)) :
  output <> [] -> Forall (fun o => ncols o = ns) output ->
  exists outputs, concatenate2 output = Ok outputs.
Proof.
  intros Hne Hall. destruct output as [| o rest]; [contradiction |].
  inversion Hall as [| ? ? Ho Hrest]; subst. unfold concatenate2.
  replace (forallb _ rest) with true; [eexists; reflexivity |].
  symmetry. apply forallb_forall. intros o' Hin.
  rewrite Forall_forall in Hrest. apply Nat.eqb_eq. now apply Hrest.
Qed.

(** A call on a sequence of at least one element. *)
Lemma FactorizedRnnCell_call_run nin ns self x state :
  is_FactorizedRnnCell nin ns self -> ncols x = nin -> rows x <> [] ->
  length state = ns ->
  run (FactorizedRnnCell_call state x) self =
  (Ok {| ncols := ns;
         rows := [fold_left (ddl_step (canonical self)) (rows x) state] |},
   set_factor {| ncols := ns; rows := map (affine (win self)) (rows x) |} self).
Proof.
  intros Hself Hx Hne Hs. pose proof Hself as (Hi & Hn & Hns).
  unfold FactorizedRnnCell_call.
  rewrite run_bind, run_get, run_bind, run_pure, (Linear_call_array2 _ Hi Hx).
  rewrite run_bind, run_put.
  set (f := {| ncols := ns; rows := map (affine (win self)) (rows x) |}).
  destruct (@FactorizedRnnCell_loop_run nin ns (set_factor f self) f [] (rows x)
              state [])
    as (output' & Hrun & Hall & Hlen);
    [exact Hself | reflexivity | reflexivity | assumption | constructor |].
  simpl length in Hrun. rewrite run_bind, Hrun.
  destruct (@concatenate2_ok ns output') as [outputs Hcat]; [| assumption |].
  { intros ->. simpl in Hlen. destruct (rows x); [contradiction | discriminate]. }
  rewrite run_bind, run_pure, Hcat, run_bind, run_get, run_pure.
  unfold reshape_1n. simpl nstate.
  rewrite (fold_ddl_step_length _ _ (canonical_is_DDLRnnCell Hself) Hs).
  rewrite Hns, Nat.eqb_refl. reflexivity.
Qed.

End FactorizedFacts.

Section CellProperties.

Context {R : Type} {SR : Scalar R}.

Implicit Types (state : list R).

(** C3: for a state of dimension [nstate] and an input of dimension [nin],
    the update of the two-weight cell [DDLRnnCell] returns a state of
    dimension [nstate] whose component [j] is
    [activation((W_hh * state)_j + b_j + (W_xh * input)_j)]: a biased affine
    transform of the state, an unbiased one of the input, their sum, and the
    activation function on it.  The call leaves the cell as it was. *)
Theorem DDLRnnCell_call_is_elman (nin ns : nat) (self : DDLRnnCell R)
    (state x : list R) :
  is_DDLRnnCell nin ns self -> length state = ns -> length x = nin ->
  exists new_state,
    run (DDLRnnCell_call state x) self = (Ok new_state, self) /\
    length new_state = ns /\
    forall j, j < ns -> nth j new_state zero = elman_component self state x j.
Proof.
  intros Hd Hs Hx. exists (ddl_step self state x).
  split; [now apply (DDLRnnCell_call_vec _ _ Hd) |].
  split; [apply (ddl_step_length _ _ Hd) |].
  intros j Hj. destruct Hd as [(_ & Hxc & Hxwf & Hxb) (_ & Hhc & Hhwf & Hhb)].
  unfold ddl_step, elman_component, affine, bias_component.
  destruct (b (whh self)) as [bv |]; [destruct Hhb as [_ Hbv] | discriminate].
  destruct (b (wxh self)) as [bx |]; [destruct Hxb; discriminate |].
  assert (Hlh : length (vecmat state (w (whh self))) = ns)
    by (rewrite vecmat_length; assumption).
  assert (Hlx : length (vecmat x (w (wxh self))) = ns)
    by (rewrite vecmat_length; assumption).
  set (act := ddl_activation self).
  rewrite (nth_indep _ zero (act zero))
    by (rewrite length_map, !zipWith_length; lia).
  rewrite map_nth. f_equal.
  rewrite (zipWith_nth _ _ _ zero zero) by (rewrite ?zipWith_length; lia).
  rewrite (zipWith_nth _ _ _ zero zero) by lia.
  rewrite !vecmat_nth by (assumption || lia). reflexivity.
Qed.

(** C1: with the same weights in both cells, on a sequence of [T >= 1]
    elements of dimension [nin] and a state of dimension [nstate], the
    two-weight cell applied [T] times in order returns a final state, and the
    single whole-sequence call of the factorized cell returns that state
    reshaped to [(1, nstate)]. *)
Theorem FactorizedRnnCell_call_is_step_by_step (nin ns : nat)
    (f : FactorizedRnnCell R) (d : DDLRnnCell R) (state : list R)
    (x : array2 R) :
  is_FactorizedRnnCell nin ns f ->
  win f = wxh d -> wn f = whh d -> fact_activation f = ddl_activation d ->
  length state = ns -> wf_array2 x -> ncols x = nin -> rows x <> [] ->
  exists final,
    outcome (step_by_step (slices2 x) state) d = Ok final /\
    reshape_1n final ns = Ok {| ncols := ns; rows := [final] |} /\
    outcome (FactorizedRnnCell_call state x) f = reshape_1n final ns.
Proof.
  intros Hf Hin Hn Hact Hs Hwf Hx Hne.
  assert (Hd : d = canonical f).
  { destruct d. unfold canonical. simpl in *. congruence. }
  subst d. pose proof (canonical_is_DDLRnnCell Hf) as Hd.
  exists (fold_left (ddl_step (canonical f)) (rows x) state).
  assert (Hre : reshape_1n (fold_left (ddl_step (canonical f)) (rows x) state) ns =
                Ok {| ncols := ns;
                      rows := [fold_left (ddl_step (canonical f)) (rows x) state] |}).
  { unfold reshape_1n. rewrite (fold_ddl_step_length _ _ Hd Hs), Nat.eqb_refl.
    reflexivity. }
  unfold outcome, slices2. split; [| split; [exact Hre |]].
  - rewrite (@step_by_step_run _ _ nin ns); try assumption; [reflexivity |].
    unfold wf_array2 in Hwf. now rewrite Hx in Hwf.
  - rewrite (FactorizedRnnCell_call_run _ _ Hf Hx Hne Hs), Hre. reflexivity.
Qed.

(** C9: on a sequence of no element the whole-sequence call of the factorized
    cell raises; it does not return the initial state.  When the sequence has
    the width [nin] the projection succeeds and it is the concatenation of the
    empty list of per-step outputs that raises. *)
Theorem FactorizedRnnCell_call_empty_sequence (nin ns : nat)
    (self : FactorizedRnnCell R) (state : list R) (x : array2 R) :
  is_FactorizedRnnCell nin ns self -> rows x = [] ->
  (exists e, outcome (FactorizedRnnCell_call state x) self = Err e) /\
  (ncols x = nin ->
   outcome (FactorizedRnnCell_call state x) self = Err ValueError).
Proof.
  intros (Hi & Hn & Hns) Hrows.
  assert (Hok : ncols x = nin ->
                outcome (FactorizedRnnCell_call state x) self = Err ValueError).
  { intros Hx. unfold outcome, FactorizedRnnCell_call.
    rewrite run_bind, run_get, run_bind, run_pure, (Linear_call_array2 _ Hi Hx).
    rewrite run_bind, run_put, Hrows. cbn [length seq for_each].
    rewrite run_bind, run_ret, run_bind, run_pure. reflexivity. }
  split; [| exact Hok].
  destruct (Nat.eq_dec (ncols x) nin) as [Hx | Hx]; [eauto |].
  exists ShapeError. unfold outcome, FactorizedRnnCell_call.
  rewrite run_bind, run_get, run_bind, run_pure, Linear_call_array2_mismatch;
    [reflexivity |].
  destruct Hi as (Hr & _). now rewrite Hr.
Qed.

End CellProperties.

Section ShapeProperties.

Context {R : Type} {SR : Scalar R}.

Implicit Types (state x : list R).

(** ** Shapes *)

Lemma MyRnnCell_call_mismatch nin ns (self : MyRnnCell R) state x :
  is_MyRnnCell nin ns self -> length x + length state <> nin + ns ->
  run (MyRnnCell_call state x) self = (Err ShapeError, self).
Proof.
  intros (l1 & l2 & act & Hop & H1 & H2) Hlen.
  unfold MyRnnCell_call. rewrite run_bind, run_get, run_pure, Hop.
  unfold Sequential_call, concatenate1. cbn [for_each layer_call].
  rewrite Linear_call_vec_mismatch; [reflexivity |].
  destruct H1 as (Hr & _). rewrite Hr, length_app. exact Hlen.
Qed.

Lemma DDLRnnCell_call_mismatch nin ns (self : DDLRnnCell R) state x :
  is_DDLRnnCell nin ns self -> length state = ns -> length x <> nin ->
  run (DDLRnnCell_call state x) self = (Err ShapeError, self).
Proof.
  intros [Hx Hh] Hs Hi. unfold DDLRnnCell_call.
  rewrite run_bind, run_get, run_bind, run_pure, (Linear_call_vec _ Hh Hs).
  rewrite run_bind, run_pure, Linear_call_vec_mismatch; [reflexivity |].
  destruct Hx as (Hr & _). now rewrite Hr.
Qed.

Lemma FactorizedRnnCell_call_mismatch nin ns (self : FactorizedRnnCell R)
    state (xs : array2 R) :
  is_FactorizedRnnCell nin ns self -> ncols xs <> nin ->
  run (FactorizedRnnCell_call state xs) self = (Err ShapeError, self).
Proof.
  intros (Hi & _) Hx. unfold FactorizedRnnCell_call.
  rewrite run_bind, run_get, run_bind, run_pure, Linear_call_array2_mismatch;
    [reflexivity |].
  destruct Hi as (Hr & _). now rewrite Hr.
Qed.

(** C8: the simple cell checks the length of the concatenation only: whenever
    the lengths of [x] and [state] add up to [nin + nstate], whatever each of
    them is, the update succeeds and returns a state of dimension [nstate]
    (and leaves the cell as it was). *)
Theorem MyRnnCell_checks_concatenation_only (nin ns : nat)
    (self : MyRnnCell R) (state x : list R) :
  is_MyRnnCell nin ns self -> length x + length state = nin + ns ->
  exists new_state,
    run (MyRnnCell_call state x) self = (Ok new_state, self) /\
    length new_state = ns.
Proof.
  intros (l1 & l2 & act & Hop & H1 & H2) Hlen.
  exists (map act (affine l2 (affine l1 (x ++ state)))). split.
  - unfold MyRnnCell_call. rewrite run_bind, run_get, run_pure, Hop.
    unfold Sequential_call, concatenate1. cbn [for_each layer_call].
    rewrite (Linear_call_vec _ H1) by (rewrite length_app; exact Hlen).
    cbn [bind Monad_result Monad_either].
    rewrite (Linear_call_vec _ H2) by apply (affine_length _ H1).
    reflexivity.
  - rewrite length_map. apply (affine_length _ H2).
Qed.


(** C5: a cell built with [nin = 3] and [nstate = 10], called with a state of
    length [10] and an input of a length other than [3], raises a shape
    error, whichever of the three cells it is (the factorized cell takes a
    sequence [xs] of such inputs); no call returns a state. *)
Theorem wrong_input_length_is_ShapeError (state x : list R) (xs : array2 R) :
  length state = 10 -> length x <> 3 -> ncols xs = length x ->
  (forall c : MyRnnCell R, is_MyRnnCell 3 10 c ->
     outcome (MyRnnCell_call state x) c = Err ShapeError) /\
  (forall c : DDLRnnCell R, is_DDLRnnCell 3 10 c ->
     outcome (DDLRnnCell_call state x) c = Err ShapeError) /\
  (forall c : FactorizedRnnCell R, is_FactorizedRnnCell 3 10 c ->
     outcome (FactorizedRnnCell_call state xs) c = Err ShapeError).
Proof.
  intros Hs Hx Hxs. unfold outcome. repeat split; intros c Hc.
  - rewrite (MyRnnCell_call_mismatch _ _ Hc); [reflexivity | lia].
  - now rewrite (DDLRnnCell_call_mismatch _ _ Hc).
  - rewrite (FactorizedRnnCell_call_mismatch _ _ Hc); [reflexivity | lia].
Qed.

End ShapeProperties.

(** ** What a call writes and what it reads *)

Section Frames.

Context {W P : Type} (p : W -> P).

Lemma outcome_bind {A B} (m : exec W A) (k : A -> exec W B) (w : W) :
  outcome (bind m k) w =
  match outcome m w with
  | Ok a => outcome (k a) (after m w)
  | Err e => Err e
  end.
Proof.
  unfold outcome, after. rewrite run_bind.
  destruct (run m w) as [[e | a] w']; reflexivity.
Qed.

Lemma after_bind {A B} (m : exec W A) (k : A -> exec W B) (w : W) :
  after (bind m k) w =
  match outcome m w with
  | Ok a => after (k a) (after m w)
  | Err e => after m w
  end.
Proof.
  unfold outcome, after. rewrite run_bind.
  destruct (run m w) as [[e | a] w']; reflexivity.
Qed.

Lemma preserves_ret {A} (a : A) : preserves p (ret a).
Proof. intros w. reflexivity. Qed.

Lemma preserves_pure {A} (r : result A) : preserves p (pure r).
Proof. intros w. unfold after. now rewrite run_pure. Qed.

Lemma preserves_bind {A B} (m : exec W A) (k : A -> exec W B) :
  preserves p m -> (forall a, preserves p (k a)) -> preserves p (bind m k).
Proof.
  intros Hm Hk w. rewrite after_bind.
  destruct (outcome m w) as [e | a]; [apply Hm |]. now rewrite Hk.
Qed.

Lemma preserves_scan {S X O} (f : S -> X -> exec W (S * O)) (xs : list X) :
  (forall s x, preserves p (f s x)) -> forall s, preserves p (scan f s xs).
Proof.
  intros Hf. induction xs as [| x xs IH]; intros s; cbn [scan].
  - apply preserves_ret.
  - apply preserves_bind; [apply Hf |]. intros so.
    apply preserves_bind; [apply IH |]. intros rest. apply preserves_ret.
Qed.

Lemma preserves_mapM {A B} (f : A -> exec W B) (l : list A) :
  (forall a, preserves p (f a)) -> preserves p (mapM f l).
Proof.
  intros Hf. induction l as [| a l IH]; cbn [mapM].
  - apply preserves_ret.
  - apply preserves_bind; [apply Hf |]. intros c.
    apply preserves_bind; [apply IH |]. intros bs. apply preserves_ret.
Qed.

Lemma determined_ret {A} (a : A) : determined_by p (ret a).
Proof. intros w w' H. split; [reflexivity | exact H]. Qed.

Lemma determined_pure {A} (r : result A) : determined_by p (pure r).
Proof.
  intros w w' H. unfold outcome, after. rewrite !run_pure. now split.
Qed.

Lemma determined_bind {A B} (m : exec W A) (k : A -> exec W B) :
  determined_by p m -> (forall a, determined_by p (k a)) ->
  determined_by p (bind m k).
Proof.
  intros Hm Hk w w' H. rewrite !outcome_bind, !after_bind.
  destruct (Hm w w' H) as [Ho Ha]. rewrite <- Ho.
  destruct (outcome m w) as [e | a]; [now split |]. now apply Hk.
Qed.

Lemma determined_scan {S X O} (f : S -> X -> exec W (S * O)) (xs : list X) :
  (forall s x, determined_by p (f s x)) ->
  forall s, determined_by p (scan f s xs).
Proof.
  intros Hf. induction xs as [| x xs IH]; intros s; cbn [scan].
  - apply determined_ret.
  - apply determined_bind; [apply Hf |]. intros so.
    apply determined_bind; [apply IH |]. intros rest. apply determined_ret.
Qed.

Lemma determined_mapM {A B} (f : A -> exec W B) (l : list A) :
  (forall a, determined_by p (f a)) -> determined_by p (mapM f l).
Proof.
  intros Hf. induction l as [| a l IH]; cbn [mapM].
  - apply determined_ret.
  - apply determined_bind; [apply Hf |]. intros c.
    apply determined_bind; [apply IH |]. intros bs. apply determined_ret.
Qed.

Lemma preserves_get : preserves p get.
Proof. intros w. reflexivity. Qed.

Lemma preserves_raise {A} (e : error) : preserves p (raise e : exec W A).
Proof. intros w. reflexivity. Qed.

Lemma preserves_for_each {A S} (l : list A) (body : A -> S -> exec W S) :
  (forall a s, preserves p (body a s)) ->
  forall s, preserves p (for_each l body s).
Proof.
  intros Hb. induction l as [| a l IH]; intros s; cbn [for_each].
  - apply preserves_ret.
  - apply preserves_bind; [apply Hb | intros s'; apply IH].
Qed.

(** A call that reads and keeps [p] returns the same when it is made again. *)
Lemma same_outcome_again {A} (m : exec W A) (w : W) :
  preserves p m -> determined_by p m -> outcome m (after m w) = outcome m w.
Proof. intros Hp Hd. apply Hd, Hp. Qed.

End Frames.

(** A call that writes nothing keeps every part of the store. *)
Lemma preserves_id {W P A} (p : W -> P) (m : exec W A) :
  preserves (fun w => w) m -> preserves p m.
Proof. intros H w. now rewrite H. Qed.

(** Discharges [preserves] on a method that reads the store, raises and
    calls pure operations. *)
Ltac read_only :=
  repeat first
    [ apply preserves_ret
    | apply preserves_pure
    | apply preserves_get
    | apply preserves_raise
    | apply preserves_bind; [| intros ?]
    | match goal with
      | |- preserves _ (match ?x with _ => _ end) => destruct x
      end ].

Section CellFrames.

Context {R : Type} {SR : Scalar R}.

(** ** What the cells write and read *)

Lemma MyRnnCell_call_read_only (state x : list R) :
  preserves (fun c => c) (MyRnnCell_call state x).
Proof. unfold MyRnnCell_call. read_only. Qed.

Lemma DDLRnnCell_call_read_only {T} {TT : @Tensor R T} (state x : T) :
  preserves (fun c => c) (DDLRnnCell_call state x).
Proof. unfold DDLRnnCell_call. read_only. Qed.

Lemma FactorizedRnnCell_step_read_only (i : nat)
    (vars : list R * list (array2 R)) :
  preserves (fun c => c) (FactorizedRnnCell_step i vars).
Proof. unfold FactorizedRnnCell_step, read_factor. destruct vars. read_only. Qed.

(** The cell after a call: the factor cache holds the projection of the
    sequence when that projection succeeded, and nothing else has changed. *)
Lemma FactorizedRnnCell_call_after (c : FactorizedRnnCell R) (state : list R)
    (x : array2 R) :
  after (FactorizedRnnCell_call state x) c =
  match Linear_call (win c) x with
  | Ok f => set_factor f c
  | Err _ => c
  end.
Proof.
  unfold after, FactorizedRnnCell_call.
  rewrite run_bind, run_get, run_bind, run_pure.
  destruct (Linear_call (win c) x) as [e | f]; [reflexivity |].
  rewrite run_bind, run_put.
  assert (H : preserves (fun c0 : FactorizedRnnCell R => c0)
    (vars <- for_each (seq 0 (length (rows x))) FactorizedRnnCell_step
               (state, []) ;;
     let (state0, output) := vars : list R * list (array2 R) in
     outputs <- pure (concatenate2 output) ;;
     self <- get ;;
     pure (reshape_1n state0 (nstate self)))).
  { apply preserves_bind.
    - apply preserves_for_each. intros. apply FactorizedRnnCell_step_read_only.
    - intros [state0 output]. read_only. }
  exact (H (set_factor f c)).
Qed.

Lemma FactorizedRnnCell_call_preserves (state : list R) (x : array2 R) :
  preserves parameters (FactorizedRnnCell_call state x).
Proof.
  intros c. rewrite FactorizedRnnCell_call_after.
  destruct (Linear_call (win c) x); reflexivity.
Qed.

Lemma FactorizedRnnCell_call_determined (state : list R) (x : array2 R) :
  determined_by parameters (FactorizedRnnCell_call state x).
Proof.
  intros c c' H. split.
  - destruct c as [wi wn0 act ns g], c' as [wi' wn' act' ns' g'].
    unfold parameters in H. cbn in H. injection H as -> -> -> ->.
    unfold outcome, FactorizedRnnCell_call.
    rewrite !run_bind, !run_get, !run_bind, !run_pure. cbn [win].
    destruct (Linear_call wi' x) as [e | f]; [reflexivity |].
    rewrite !run_bind, !run_put. reflexivity.
  - now rewrite !FactorizedRnnCell_call_preserves.
Qed.

End CellFrames.

Section DriverFrames.

Context {R : Type} {SR : Scalar R} {W P : Type} (p : W -> P) {S O : Type}.

(** ** What the drivers write and read: what their cell and output layer do *)

Lemma RNN_call_preserves (self : Driver W S (array2 R) S O) :
  (forall s x, preserves p (cell self s x)) ->
  (forall s, preserves p (output_layer self s)) ->
  forall x s, preserves p (RNN_call self x s).
Proof.
  intros Hc Ho x s. unfold RNN_call. apply preserves_bind.
  - apply preserves_scan. intros s' x'. unfold RNN_single.
    apply preserves_bind; [apply Hc | intros ?].
    apply preserves_bind; [apply Ho | intros ?]. apply preserves_ret.
  - intros [final_state output]. apply preserves_ret.
Qed.

Lemma VectorizedRNN_call_preserves (self : Driver W S (list R) S O) :
  (forall s x, preserves p (cell self s x)) ->
  (forall s, preserves p (output_layer self s)) ->
  forall x s, preserves p (VectorizedRNN_call self x s).
Proof.
  intros Hc Ho x s. unfold VectorizedRNN_call. apply preserves_bind.
  - apply preserves_scan. intros s' x'. unfold VectorizedRNN_single.
    apply preserves_bind; [apply Hc | intros ?].
    apply preserves_bind; [apply Ho | intros ?]. apply preserves_ret.
  - intros [final_state output]. apply preserves_ret.
Qed.

Lemma FactorizedRNN_call_preserves {X} (self : Driver W S X (array2 R) O) :
  (forall s x, preserves p (cell self s x)) ->
  (forall c, preserves p (output_layer self c)) ->
  forall x s, preserves p (FactorizedRNN_call self x s).
Proof.
  intros Hc Ho x s. unfold FactorizedRNN_call.
  apply preserves_bind; [apply Hc | intros ?].
  apply preserves_bind; [apply Ho | intros ?]. read_only.
Qed.

Lemma Vectorize_preserves {O' S'}
    (f : array2 R -> list R -> exec W (O' * S')) :
  (forall x s, preserves p (f x s)) ->
  forall x s, preserves p (Vectorize f x s).
Proof.
  intros Hf x s. unfold Vectorize.
  destruct (length (items x) =? length (rows s)); [| apply preserves_raise].
  apply preserves_bind; [| intros ?; apply preserves_ret].
  apply preserves_mapM. intros xs. apply Hf.
Qed.

Lemma RNN_call_determined (self : Driver W S (array2 R) S O) :
  (forall s x, determined_by p (cell self s x)) ->
  (forall s, determined_by p (output_layer self s)) ->
  forall x s, determined_by p (RNN_call self x s).
Proof.
  intros Hc Ho x s. unfold RNN_call. apply determined_bind.
  - apply determined_scan. intros s' x'. unfold RNN_single.
    apply determined_bind; [apply Hc | intros ?].
    apply determined_bind; [apply Ho | intros ?]. apply determined_ret.
  - intros [final_state output]. apply determined_ret.
Qed.

Lemma VectorizedRNN_call_determined (self : Driver W S (list R) S O) :
  (forall s x, determined_by p (cell self s x)) ->
  (forall s, determined_by p (output_layer self s)) ->
  forall x s, determined_by p (VectorizedRNN_call self x s).
Proof.
  intros Hc Ho x s. unfold VectorizedRNN_call. apply determined_bind.
  - apply determined_scan. intros s' x'. unfold VectorizedRNN_single.
    apply determined_bind; [apply Hc | intros ?].
    apply determined_bind; [apply Ho | intros ?]. apply determined_ret.
  - intros [final_state output]. apply determined_ret.
Qed.

Lemma FactorizedRNN_call_determined {X} (self : Driver W S X (array2 R) O) :
  (forall s x, determined_by p (cell self s x)) ->
  (forall c, determined_by p (output_layer self c)) ->
  forall x s, determined_by p (FactorizedRNN_call self x s).
Proof.
  intros Hc Ho x s. unfold FactorizedRNN_call.
  apply determined_bind; [apply Hc | intros ?].
  apply determined_bind; [apply Ho | intros ?].
  apply determined_bind; [apply determined_pure | intros ?].
  apply determined_ret.
Qed.

Lemma Vectorize_determined {O' S'}
    (f : array2 R -> list R -> exec W (O' * S')) :
  (forall x s, determined_by p (f x s)) ->
  forall x s, determined_by p (Vectorize f x s).
Proof.
  intros Hf x s. unfold Vectorize.
  destruct (length (items x) =? length (rows s)).
  - apply determined_bind; [| intros ?; apply determined_ret].
    apply determined_mapM. intros xs. apply Hf.
  - intros w w' H. now split.
Qed.

End DriverFrames.

Section ExampleFrames.

Context {R : Type} {SR : Scalar R}.

(** ** The objects of the example *)

Lemma rnn_cell_call_run {T} {TT : @Tensor R T} (state x : T) (o : objects R) :
  run (zoom rnn_cell set_rnn_cell (DDLRnnCell_call state x)) o =
  (outcome (DDLRnnCell_call state x) (rnn_cell o), o).
Proof.
  rewrite run_zoom. fold (after (DDLRnnCell_call state x) (rnn_cell o)).
  rewrite (DDLRnnCell_call_read_only state x (rnn_cell o)).
  destruct o; reflexivity.
Qed.

Lemma out_layer_call_run {T} {TT : @Tensor R T} (state : T) (o : objects R) :
  run (out_layer_call state) o = (Linear_call (out_layer o) state, o).
Proof. unfold out_layer_call. now rewrite run_bind, run_get, run_pure. Qed.

Lemma rnn_cell_call_read_only {T} {TT : @Tensor R T} (state x : T) :
  preserves (fun o : objects R => o)
    (zoom rnn_cell set_rnn_cell (DDLRnnCell_call state x)).
Proof. intros o. unfold after. now rewrite rnn_cell_call_run. Qed.

Lemma out_layer_call_read_only {T} {TT : @Tensor R T} (state : T) :
  preserves (fun o : objects R => o) (out_layer_call state).
Proof. intros o. unfold after. now rewrite out_layer_call_run. Qed.

Lemma rnn_cell_call_frames {T} {TT : @Tensor R T} (state x : T) :
  preserves learned (zoom rnn_cell set_rnn_cell (DDLRnnCell_call state x)) /\
  determined_by learned
    (zoom rnn_cell set_rnn_cell (DDLRnnCell_call state x)).
Proof.
  split.
  - intros o. unfold after. now rewrite rnn_cell_call_run.
  - intros o o' H. unfold outcome at 1 2, after. rewrite !rnn_cell_call_run.
    cbn [fst snd]. split; [| exact H].
    unfold learned in H. injection H as -> _ _. reflexivity.
Qed.

Lemma out_layer_call_frames {T} {TT : @Tensor R T} (state : T) :
  preserves learned (out_layer_call state) /\
  determined_by learned (out_layer_call state).
Proof.
  split.
  - intros o. unfold after. now rewrite out_layer_call_run.
  - intros o o' H. unfold outcome, after. rewrite !out_layer_call_run.
    cbn [fst snd]. split; [| exact H].
    unfold learned in H. injection H as _ -> _. reflexivity.
Qed.

Lemma factorized_cell_call_frames (state : list R) (x : array2 R) :
  preserves learned
    (zoom factorized_cell set_factorized_cell
       (FactorizedRnnCell_call state x)) /\
  determined_by learned
    (zoom factorized_cell set_factorized_cell
       (FactorizedRnnCell_call state x)).
Proof.
  assert (Hp : forall o : objects R,
    learned (after (zoom factorized_cell set_factorized_cell
                      (FactorizedRnnCell_call state x)) o) = learned o).
  { intros o. unfold after. rewrite run_zoom. cbn [snd].
    fold (after (FactorizedRnnCell_call state x) (factorized_cell o)).
    unfold learned. cbn [rnn_cell out_layer factorized_cell set_factorized_cell].
    now rewrite FactorizedRnnCell_call_preserves. }
  split; [exact Hp |].
  intros o o' H. split; [| now rewrite !Hp].
  unfold outcome. rewrite !run_zoom. cbn [fst].
  apply (FactorizedRnnCell_call_determined state x).
  unfold learned in H. unfold parameters.
  injection H as _ _ -> -> -> ->. reflexivity.
Qed.

End ExampleFrames.

Section FrameProperties.

Context {R : Type} {SR : Scalar R}.

Lemma example_drivers_frame (x3 : array3 R) (s2 x2 : array2 R) (s1 : list R) :
  (preserves learned (RNN_call r_RNN x3 s2) /\
   determined_by learned (RNN_call r_RNN x3 s2)) /\
  (preserves learned (VectorizedRNN_call r_VectorizedRNN x2 s1) /\
   determined_by learned (VectorizedRNN_call r_VectorizedRNN x2 s1)) /\
  (preserves learned (rnn_vec x3 s2) /\
   determined_by learned (rnn_vec x3 s2)) /\
  (preserves learned (FactorizedRNN_call f_FactorizedRNN x2 s1) /\
   determined_by learned (FactorizedRNN_call f_FactorizedRNN x2 s1)).
Proof.
  split; [| split; [| split]]; split.
  - apply RNN_call_preserves; intros; cbn [cell output_layer r_RNN];
      [apply rnn_cell_call_frames | apply out_layer_call_frames].
  - apply RNN_call_determined; intros; cbn [cell output_layer r_RNN];
      [apply rnn_cell_call_frames | apply out_layer_call_frames].
  - apply VectorizedRNN_call_preserves; intros;
      cbn [cell output_layer r_VectorizedRNN];
      [apply rnn_cell_call_frames | apply out_layer_call_frames].
  - apply VectorizedRNN_call_determined; intros;
      cbn [cell output_layer r_VectorizedRNN];
      [apply rnn_cell_call_frames | apply out_layer_call_frames].
  - apply Vectorize_preserves. intros.
    apply VectorizedRNN_call_preserves; intros;
      cbn [cell output_layer r_VectorizedRNN];
      [apply rnn_cell_call_frames | apply out_layer_call_frames].
  - apply Vectorize_determined. intros.
    apply VectorizedRNN_call_determined; intros;
      cbn [cell output_layer r_VectorizedRNN];
      [apply rnn_cell_call_frames | apply out_layer_call_frames].
  - apply FactorizedRNN_call_preserves; intros;
      cbn [cell output_layer f_FactorizedRNN];
      [apply factorized_cell_call_frames | apply out_layer_call_frames].
  - apply FactorizedRNN_call_determined; intros;
      cbn [cell output_layer f_FactorizedRNN];
      [apply factorized_cell_call_frames | apply out_layer_call_frames].
Qed.

Lemma example_recurrent_drivers_read_only (x3 : array3 R) (s2 x2 : array2 R)
    (s1 : list R) (o : objects R) :
  after (RNN_call r_RNN x3 s2) o = o /\
  after (VectorizedRNN_call r_VectorizedRNN x2 s1) o = o /\
  after (rnn_vec x3 s2) o = o.
Proof.
  pose proof (@rnn_cell_call_read_only R) as Hc.
  pose proof (@out_layer_call_read_only R) as Ho.
  repeat split.
  - apply (RNN_call_preserves (p := fun o : objects R => o)); intros;
      [apply Hc | apply Ho].
  - apply (VectorizedRNN_call_preserves (p := fun o : objects R => o)); intros;
      [apply Hc | apply Ho].
  - apply (Vectorize_preserves (p := fun o : objects R => o)). intros.
    apply (VectorizedRNN_call_preserves (p := fun o : objects R => o)); intros;
      [apply Hc | apply Ho].
Qed.

(** C10: no forward call changes a learned parameter.  The calls of the
    simple cell and of the two-weight cell leave the cell as it was.  The call
    of the factorized cell changes the factor cache only, which then holds the
    projection of the input sequence (when projecting raised, nothing has
    changed).  A driver keeps every part of the store that its cell and its
    output layer keep; for the objects of the example, the two recurrent
    drivers and the batched driver leave them all as they were, and the
    factorized driver keeps [rnn_cell], [out_layer] and the parameters of
    [factorized_cell]. *)
Theorem forward_calls_keep_the_learned_parameters :
  (forall (c : MyRnnCell R) (state x : list R),
     after (MyRnnCell_call state x) c = c) /\
  (forall T (TT : @Tensor R T) (c : DDLRnnCell R) (state x : T),
     after (DDLRnnCell_call state x) c = c) /\
  (forall (c : FactorizedRnnCell R) (state : list R) (x : array2 R),
     parameters (after (FactorizedRnnCell_call state x) c) = parameters c /\
     factor (after (FactorizedRnnCell_call state x) c) =
       match Linear_call (win c) x with
       | Ok f => Some f
       | Err _ => factor c
       end) /\
  (forall (W P S O : Type) (p : W -> P),
     (forall self : Driver W S (array2 R) S O,
        (forall s x, preserves p (cell self s x)) ->
        (forall s, preserves p (output_layer self s)) ->
        forall x s, preserves p (RNN_call self x s)) /\
     (forall self : Driver W S (list R) S O,
        (forall s x, preserves p (cell self s x)) ->
        (forall s, preserves p (output_layer self s)) ->
        forall x s, preserves p (VectorizedRNN_call self x s)) /\
     (forall X (self : Driver W S X (array2 R) O),
        (forall s x, preserves p (cell self s x)) ->
        (forall c, preserves p (output_layer self c)) ->
        forall x s, preserves p (FactorizedRNN_call self x s))) /\
  (forall (o : objects R) (x3 : array3 R) (s2 x2 : array2 R) (s1 : list R),
     after (RNN_call r_RNN x3 s2) o = o /\
     after (VectorizedRNN_call r_VectorizedRNN x2 s1) o = o /\
     after (rnn_vec x3 s2) o = o /\
     learned (after (FactorizedRNN_call f_FactorizedRNN x2 s1) o) = learned o).
Proof.
  split; [intros; apply MyRnnCell_call_read_only |].
  split; [intros; apply DDLRnnCell_call_read_only |].
  split.
  { intros c state x. split; [apply FactorizedRnnCell_call_preserves |].
    rewrite FactorizedRnnCell_call_after.
    destruct (Linear_call (win c) x); reflexivity. }
  split.
  { intros W P S O p. split; [| split].
    - apply RNN_call_preserves.
    - apply VectorizedRNN_call_preserves.
    - intros X. apply FactorizedRNN_call_preserves. }
  intros o x3 s2 x2 s1.
  destruct (example_recurrent_drivers_read_only x3 s2 x2 s1 o) as (H1 & H2 & H3).
  repeat split; try assumption.
  apply (example_drivers_frame x3 s2 x2 s1).
Qed.

(** C7: a driver whose cell and output layer read and keep a part [p] of
    the store returns, when called again with the same arguments, what it
    returned the first time.  For the objects of the example: two stores with
    the same learned parameters give the same outputs and final states,
    whatever their factor caches hold, and so does a second call after a
    first.  Nothing random is consulted: what a call returns is a function of
    the parameters and the arguments. *)
Theorem forward_pass_is_deterministic :
  (forall (W P S O : Type) (p : W -> P),
     (forall self : Driver W S (array2 R) S O,
        (forall s x, preserves p (cell self s x) /\
                     determined_by p (cell self s x)) ->
        (forall s, preserves p (output_layer self s) /\
                   determined_by p (output_layer self s)) ->
        forall x s w,
          outcome (RNN_call self x s) (after (RNN_call self x s) w) =
          outcome (RNN_call self x s) w) /\
     (forall self : Driver W S (list R) S O,
        (forall s x, preserves p (cell self s x) /\
                     determined_by p (cell self s x)) ->
        (forall s, preserves p (output_layer self s) /\
                   determined_by p (output_layer self s)) ->
        forall x s w,
          outcome (VectorizedRNN_call self x s)
            (after (VectorizedRNN_call self x s) w) =
          outcome (VectorizedRNN_call self x s) w) /\
     (forall X (self : Driver W S X (array2 R) O),
        (forall s x, preserves p (cell self s x) /\
                     determined_by p (cell self s x)) ->
        (forall c, preserves p (output_layer self c) /\
                   determined_by p (output_layer self c)) ->
        forall x s w,
          outcome (FactorizedRNN_call self x s)
            (after (FactorizedRNN_call self x s) w) =
          outcome (FactorizedRNN_call self x s) w)) /\
  (forall (o o' : objects R) (x3 : array3 R) (s2 x2 : array2 R) (s1 : list R),
     learned o = learned o' ->
     outcome (RNN_call r_RNN x3 s2) o = outcome (RNN_call r_RNN x3 s2) o' /\
     outcome (VectorizedRNN_call r_VectorizedRNN x2 s1) o =
       outcome (VectorizedRNN_call r_VectorizedRNN x2 s1) o' /\
     outcome (rnn_vec x3 s2) o = outcome (rnn_vec x3 s2) o' /\
     outcome (FactorizedRNN_call f_FactorizedRNN x2 s1) o =
       outcome (FactorizedRNN_call f_FactorizedRNN x2 s1) o') /\
  (forall (o : objects R) (x3 : array3 R) (s2 x2 : array2 R) (s1 : list R),
     outcome (RNN_call r_RNN x3 s2) (after (RNN_call r_RNN x3 s2) o) =
       outcome (RNN_call r_RNN x3 s2) o /\
     outcome (VectorizedRNN_call r_VectorizedRNN x2 s1)
       (after (VectorizedRNN_call r_VectorizedRNN x2 s1) o) =
       outcome (VectorizedRNN_call r_VectorizedRNN x2 s1) o /\
     outcome (rnn_vec x3 s2) (after (rnn_vec x3 s2) o) =
       outcome (rnn_vec x3 s2) o /\
     outcome (FactorizedRNN_call f_FactorizedRNN x2 s1)
       (after (FactorizedRNN_call f_FactorizedRNN x2 s1) o) =
       outcome (FactorizedRNN_call f_FactorizedRNN x2 s1) o).
Proof.
  split; [| split].
  - intros W P S O p. split; [| split].
    + intros self Hc Ho x s w. apply same_outcome_again with (p := p).
      * apply RNN_call_preserves; intros; [apply Hc | apply Ho].
      * apply RNN_call_determined; intros; [apply Hc | apply Ho].
    + intros self Hc Ho x s w. apply same_outcome_again with (p := p).
      * apply VectorizedRNN_call_preserves; intros; [apply Hc | apply Ho].
      * apply VectorizedRNN_call_determined; intros; [apply Hc | apply Ho].
    + intros X self Hc Ho x s w. apply same_outcome_again with (p := p).
      * apply FactorizedRNN_call_preserves; intros; [apply Hc | apply Ho].
      * apply FactorizedRNN_call_determined; intros; [apply Hc | apply Ho].
  - intros o o' x3 s2 x2 s1 H.
    destruct (example_drivers_frame x3 s2 x2 s1)
      as ((_ & D1) & (_ & D2) & (_ & D3) & (_ & D4)).
    repeat split; [apply D1 | apply D2 | apply D3 | apply D4]; exact H.
  - intros o x3 s2 x2 s1.
    destruct (example_drivers_frame x3 s2 x2 s1)
      as ((P1 & D1) & (P2 & D2) & (P3 & D3) & (P4 & D4)).
    repeat split; apply same_outcome_again with (p := learned); assumption.
Qed.

End FrameProperties.

Section FactorizedDriver.

Context {R : Type} {SR : Scalar R} {W O : Type}.

Variable getter : W -> FactorizedRnnCell R.
Variable setter : FactorizedRnnCell R -> W -> W.
Variable layer : array2 R -> exec W O.

(** C4: on a state of dimension [nstate] and a sequence of [T >= 1] elements
    of dimension [nin], the factorized driver makes one whole-sequence call of
    its cell, which returns the final state [final] of the step-by-step
    recurrence as an array of shape [(1, nstate)]; the driver then returns the
    pair of the output layer applied to that one array (one output, not one
    per step) and of [final] itself, or raises what the output layer raises. *)
Theorem FactorizedRNN_call_outputs_final_state (nin ns : nat) (w : W)
    (state : list R) (x : array2 R) :
  is_FactorizedRnnCell nin ns (getter w) ->
  length state = ns -> wf_array2 x -> ncols x = nin -> rows x <> [] ->
  exists final w1,
    outcome (step_by_step (slices2 x) state) (canonical (getter w)) = Ok final /\
    run (cell (factorized_driver getter setter layer) state x) w =
      (Ok {| ncols := ns; rows := [final] |}, w1) /\
    run (FactorizedRNN_call (factorized_driver getter setter layer) x
           state) w =
      run (output <- output_layer (factorized_driver getter setter layer)
                       {| ncols := ns; rows := [final] |} ;;
           ret (output, final)) w1.
Proof.
  intros Hf Hs Hwf Hx Hne.
  pose proof (canonical_is_DDLRnnCell Hf) as Hd.
  exists (fold_left (ddl_step (canonical (getter w))) (rows x) state).
  eexists. split; [| split].
  - unfold outcome, slices2.
    rewrite (@step_by_step_run _ _ nin ns); try assumption; [reflexivity |].
    unfold wf_array2 in Hwf. now rewrite Hx in Hwf.
  - cbn [cell factorized_driver]. rewrite run_zoom.
    rewrite (FactorizedRnnCell_call_run _ _ Hf Hx Hne Hs). cbn [fst snd].
    reflexivity.
  - unfold FactorizedRNN_call. rewrite run_bind.
    cbn [cell factorized_driver]. rewrite run_zoom.
    rewrite (FactorizedRnnCell_call_run _ _ Hf Hx Hne Hs). cbn [fst snd].
    rewrite !run_bind. cbn [output_layer factorized_driver].
    match goal with
    | |- context [run (layer ?a) ?w0] =>
        destruct (run (layer a) w0) as [[e | output] w2]; [reflexivity |]
    end.
    rewrite run_bind, run_pure. reflexivity.
Qed.

End FactorizedDriver.

(** ** Transposition *)

Lemma zipWith_nil_r {A B C} (f : A -> B -> C) (l : list A) :
  zipWith f l [] = [].
Proof. destruct l; reflexivity. Qed.

Lemma transpose_0 {A} (m : list (list A)) : transpose 0 m = [].
Proof.
  induction m as [| r m IH]; simpl; [reflexivity |].
  rewrite IH. apply zipWith_nil_r.
Qed.

Lemma transpose_cons_columns {A} (n : nat) (heads : list A)
    (tails : list (list A)) :
  length heads = length tails ->
  transpose (S n) (zipWith cons heads tails) = heads :: transpose n tails.
Proof.
  revert tails. induction heads as [| h heads IH]; intros [| t tails] Hlen;
    simpl in Hlen; try discriminate; [reflexivity |].
  simpl. rewrite IH by congruence. reflexivity.
Qed.

Lemma columns {A} (n : nat) (m : list (list A)) :
  Forall (fun r => length r = S n) m ->
  exists heads tails,
    m = zipWith cons heads tails /\ length heads = length m /\
    length tails = length m /\ Forall (fun r => length r = n) tails.
Proof.
  induction 1 as [| r m Hr Hm (heads & tails & -> & Hh & Ht & Hall)].
  - exists [], []. repeat split. constructor.
  - destruct r as [| a r]; [discriminate |].
    exists (a :: heads), (r :: tails). simpl. repeat split; try congruence.
    constructor; [now injection Hr | assumption].
Qed.

Lemma transpose_length {A} (n : nat) (m : list (list A)) :
  Forall (fun r => length r = n) m -> length (transpose n m) = n.
Proof.
  induction 1 as [| r m Hr Hm IH]; simpl; [apply repeat_length |].
  rewrite zipWith_length, Hr, IH. apply Nat.min_id.
Qed.

Lemma transpose_rows_length {A} (n : nat) (m : list (list A)) :
  Forall (fun c => length c = length m) (transpose n m).
Proof.
  induction m as [| r m IH]; simpl.
  - apply Forall_forall. intros c Hc. apply repeat_spec in Hc. now subst.
  - revert r. induction IH as [| c cs Hc Hcs IHcs]; intros [| a r]; simpl;
      constructor; [simpl; congruence | apply IHcs].
Qed.

(** The rows of the transposed array, by index. *)
Lemma transpose_by_index {A} (n : nat) (m : list (list A)) (d : A) :
  Forall (fun r => length r = n) m ->
  transpose n m = map (fun t => map (fun r => nth t r d) m) (seq 0 n).
Proof.
  revert m. induction n as [| n IH]; intros m Hm.
  - apply transpose_0.
  - destruct (columns Hm) as (heads & tails & -> & Hh & Ht & Hall).
    rewrite transpose_cons_columns by congruence.
    rewrite (IH tails Hall). cbn [seq map]. f_equal.
    + clear -Hh Ht. assert (Hlen : length heads = length tails) by congruence.
      clear Hh Ht. revert tails Hlen.
      induction heads as [| h heads IHh]; intros [| t tails] Hlen;
        simpl in *; try discriminate; [reflexivity |].
      f_equal. apply IHh. congruence.
    + rewrite <- seq_shift, map_map. apply map_ext. intros t.
      clear -Hh Ht. assert (Hlen : length heads = length tails) by congruence.
      clear Hh Ht. revert tails Hlen.
      induction heads as [| h heads IHh]; intros [| t' tails] Hlen;
        simpl in *; try discriminate; [reflexivity |].
      f_equal. apply IHh. congruence.
Qed.

(** ** The batched driver *)

Lemma mapM_all_ok {W A B} (f : A -> exec W B) (g : A -> B) (l : list A)
    (w : W) :
  Forall (fun a => run (f a) w = (Ok (g a), w)) l ->
  run (mapM f l) w = (Ok (map g l), w).
Proof.
  induction 1 as [| a l Ha Hl IH]; cbn [mapM map].
  - now rewrite run_ret.
  - now rewrite run_bind, Ha, run_bind, IH, run_ret.
Qed.

Lemma map_combine_zipWith {A B C} (f : A -> B -> C) (l1 : list A)
    (l2 : list B) :
  map (fun ab => f (fst ab) (snd ab)) (combine l1 l2) = zipWith f l1 l2.
Proof.
  revert l2. induction l1 as [| a l1 IH]; intros [| c l2]; simpl; auto.
  now rewrite IH.
Qed.

Lemma combine_map_fst {A A' B} (f : A -> A') (l1 : list A) (l2 : list B) :
  combine (map f l1) l2 = map (fun ab => (f (fst ab), snd ab)) (combine l1 l2).
Proof.
  revert l2. induction l1 as [| a l1 IH]; intros [| c l2]; simpl; auto.
  now rewrite IH.
Qed.

Lemma Forall_combine {A B} (P : A * B -> Prop) (Q1 : A -> Prop)
    (Q2 : B -> Prop) (l1 : list A) (l2 : list B) :
  (forall a c, Q1 a -> Q2 c -> P (a, c)) ->
  Forall Q1 l1 -> Forall Q2 l2 -> Forall P (combine l1 l2).
Proof.
  intros HP H1. revert l2. induction H1 as [| a l1 Ha Hl1 IH];
    intros l2 H2; simpl; [constructor |].
  destruct H2 as [| c l2 Hc Hl2]; constructor; auto.
Qed.

Section BatchFacts.

Context {R : Type} {SR : Scalar R}.

Variables (nin ns nout : nat) (ub : bool) (o : objects R).

Hypothesis rnn_cell_built : is_DDLRnnCell nin ns (rnn_cell o).
Hypothesis out_layer_built : is_Linear ns nout ub (out_layer o).

Lemma sequence_run_final_length (xs : list (list R)) (s : list R) :
  length s = ns -> length (snd (sequence_run (rnn_cell o) (out_layer o) xs s)) = ns.
Proof.
  revert s. induction xs as [| x xs IH]; intros s Hs; simpl; [assumption |].
  apply IH, (ddl_step_length _ _ rnn_cell_built).
Qed.

(** One sequence through the recurrent driver. *)
Lemma VectorizedRNN_scan_run (xs : list (list R)) (s : list R) :
  Forall (fun x => length x = nin) xs -> length s = ns ->
  run (scan (VectorizedRNN_single r_VectorizedRNN) s xs) o =
  (Ok (snd (sequence_run (rnn_cell o) (out_layer o) xs s), fst (sequence_run (rnn_cell o) (out_layer o) xs s)), o).
Proof.
  intros Hxs. revert s. induction Hxs as [| x xs Hx Hxs IH]; intros s Hs;
    cbn [scan sequence_run].
  - now rewrite run_ret.
  - rewrite run_bind. unfold VectorizedRNN_single at 1.
    cbn [cell output_layer r_VectorizedRNN].
    rewrite run_bind, rnn_cell_call_run. unfold outcome.
    rewrite (DDLRnnCell_call_vec _ _ rnn_cell_built Hs Hx). cbn [fst].
    rewrite run_bind, out_layer_call_run.
    rewrite (Linear_call_vec _ out_layer_built)
      by apply (ddl_step_length _ _ rnn_cell_built).
    rewrite run_ret. cbn [fst snd]. rewrite run_bind.
    rewrite IH by apply (ddl_step_length _ _ rnn_cell_built).
    now rewrite run_ret.
Qed.

Lemma VectorizedRNN_call_run (x : array2 R) (s : list R) :
  wf_array2 x -> ncols x = nin -> length s = ns ->
  run (VectorizedRNN_call r_VectorizedRNN x s) o =
  (Ok (sequence_run (rnn_cell o) (out_layer o) (rows x) s), o).
Proof.
  intros Hwf Hx Hs. unfold VectorizedRNN_call, slices2.
  rewrite run_bind, VectorizedRNN_scan_run; try assumption.
  - rewrite run_ret. now destruct (sequence_run (rnn_cell o) (out_layer o) (rows x) s).
  - unfold wf_array2 in Hwf. now rewrite Hx in Hwf.
Qed.

(** A time-major batch through the scan of the sequential driver. *)
Lemma RNN_scan_run (xts : list (list (list R))) (ss : list (list R)) :
  Forall (fun xt => length xt = length ss) xts ->
  run (scan (RNN_single r_RNN) {| ncols := ns; rows := ss |}
         (map (Array2 nin) xts)) o =
  (Ok ({| ncols := ns; rows := snd (batch_run (rnn_cell o) (out_layer o) xts ss) |},
       map (Array2 nout) (fst (batch_run (rnn_cell o) (out_layer o) xts ss))), o).
Proof.
  intros Hxts. revert ss Hxts. induction xts as [| xt xts IH]; intros ss Hxts;
    cbn [scan batch_run map].
  - now rewrite run_ret.
  - inversion Hxts as [| ? ? Hxt Hrest]; subst.
    rewrite run_bind. unfold RNN_single at 1. cbn [cell output_layer r_RNN].
    rewrite run_bind, rnn_cell_call_run. unfold outcome.
    rewrite (@DDLRnnCell_call_array2 _ _ nin ns); try easy. cbn [fst].
    rewrite run_bind, out_layer_call_run.
    rewrite (Linear_call_array2 _ out_layer_built) by reflexivity.
    rewrite run_ret. cbn [fst snd rows]. rewrite run_bind.
    rewrite IH.
    + now rewrite run_ret.
    + rewrite zipWith_length, <- Hxt, Nat.min_id.
      eapply Forall_impl; [| exact Hrest]. intros a Ha. simpl in Ha. congruence.
Qed.

End BatchFacts.

Section BatchProperties.

Context {R : Type} {SR : Scalar R}.

Lemma split_cons {A B} (a : A) (c : B) (l : list (A * B)) :
  split ((a, c) :: l) = (a :: fst (split l), c :: snd (split l)).
Proof. simpl. now destruct (split l). Qed.

Lemma batch_run_length (d : DDLRnnCell R) (ol : Linear R)
    (xts : list (list (list R))) (ss : list (list R)) :
  length (fst (batch_run d ol xts ss)) = length xts.
Proof.
  revert ss. induction xts as [| xt xts IH]; intros ss; cbn [batch_run fst];
    [reflexivity |]. cbn [length]. now rewrite IH.
Qed.

End BatchProperties.

(** ** Cells that act on a batch row by row *)

Lemma Forall_zipWith_in {A B C} (P : C -> Prop) (f : A -> B -> C)
    (l1 : list A) (l2 : list B) :
  (forall a c, In a l1 -> In c l2 -> P (f a c)) ->
  Forall P (zipWith f l1 l2).
Proof.
  revert l2. induction l1 as [| a l1 IH]; intros [| c l2] H; simpl;
    constructor.
  - apply H; now left.
  - apply IH. intros a' c' Ha Hc. apply H; now right.
Qed.

Lemma transpose_Forall {A} (Q : A -> Prop) (n : nat) (m : list (list A)) :
  Forall (Forall Q) m -> Forall (Forall Q) (transpose n m).
Proof.
  induction 1 as [| r m Hr Hm IH]; cbn [transpose].
  - apply Forall_forall. intros c Hc. apply repeat_spec in Hc. subst c.
    constructor.
  - apply Forall_zipWith_in. intros a c Ha Hc.
    rewrite Forall_forall in Hr, IH. constructor; auto.
Qed.

Lemma split_nth_error {A B} (l : list (A * B)) (i : nat) (a : A) (c : B) :
  nth_error l i = Some (a, c) ->
  nth_error (fst (split l)) i = Some a /\ nth_error (snd (split l)) i = Some c.
Proof.
  revert i. induction l as [| [a' c'] l IH]; intros [| i] H; simpl in H;
    try discriminate; rewrite split_cons; cbn [fst snd nth_error].
  - injection H as -> ->. now split.
  - now apply IH.
Qed.

Lemma zipWith_nth_error {A B C} (f : A -> B -> C) (l1 : list A) (l2 : list B)
    (i : nat) (a : A) (c : B) :
  nth_error l1 i = Some a -> nth_error l2 i = Some c ->
  nth_error (zipWith f l1 l2) i = Some (f a c).
Proof.
  revert l2 i. induction l1 as [| a' l1 IH]; intros [| c' l2] [| i] H1 H2;
    simpl in *; try discriminate.
  - injection H1 as ->. injection H2 as ->. reflexivity.
  - now apply IH.
Qed.

Section RowByRow.

Context {R W : Type}.

Variables (nin ns nout : nat).
Variables (f : list R -> list R -> list R) (g : list R -> list R).
Variable single : Driver W (list R) (list R) (list R) (list R).
Variable batch : Driver W (array2 R) (array2 R) (array2 R) (array2 R).
Variable w : W.

Hypothesis cell_single : forall s x, length s = ns -> length x = nin ->
  run (cell single s x) w = (Ok (f s x), w) /\ length (f s x) = ns.
Hypothesis layer_single : forall s, length s = ns ->
  run (output_layer single s) w = (Ok (g s), w).
Hypothesis cell_batch : forall ss xs, length ss = length xs ->
  Forall (fun s => length s = ns) ss ->
  Forall (fun x => length x = nin) xs ->
  run (cell batch {| ncols := ns; rows := ss |}
         {| ncols := nin; rows := xs |}) w =
  (Ok {| ncols := ns; rows := zipWith f ss xs |}, w).
Hypothesis layer_batch : forall ss, Forall (fun s => length s = ns) ss ->
  run (output_layer batch {| ncols := ns; rows := ss |}) w =
  (Ok {| ncols := nout; rows := map g ss |}, w).

Lemma sequence_run_with_columns (heads : list (list R))
    (tails : list (list (list R))) (ss : list (list R)) :
  length heads = length tails -> length tails = length ss ->
  split (zipWith (sequence_run_with f g) (zipWith cons heads tails) ss) =
  (zipWith cons (map g (zipWith f ss heads))
     (fst (split (zipWith (sequence_run_with f g) tails
                    (zipWith f ss heads)))),
   snd (split (zipWith (sequence_run_with f g) tails (zipWith f ss heads)))).
Proof.
  revert tails ss. induction heads as [| h heads IH];
    intros [| t tails] [| s ss] H1 H2; simpl in H1, H2; try discriminate;
    [reflexivity |].
  cbn [zipWith map sequence_run_with].
  destruct (sequence_run_with f g t (f s h)) as [os fin].
  rewrite !split_cons, IH by congruence. cbn [fst snd zipWith].
  reflexivity.
Qed.

Lemma batch_run_with_length (xts : list (list (list R)))
    (ss : list (list R)) :
  length (fst (batch_run_with f g xts ss)) = length xts.
Proof.
  revert ss. induction xts as [| xt xts IH]; intros ss;
    cbn [batch_run_with fst]; [reflexivity |]. cbn [length]. now rewrite IH.
Qed.

(** The sequences of a batch run one by one are the time-major batch run
    step by step, with the two axes of the outputs exchanged. *)
Lemma sequences_with_are_transposed_batch (T : nat)
    (xbs : list (list (list R))) (ss : list (list R)) :
  Forall (fun xb => length xb = T) xbs -> length xbs = length ss ->
  split (zipWith (sequence_run_with f g) xbs ss) =
  (transpose (length ss) (fst (batch_run_with f g (transpose T xbs) ss)),
   snd (batch_run_with f g (transpose T xbs) ss)).
Proof.
  revert xbs ss. induction T as [| T IH]; intros xbs ss Hx Hlen.
  - rewrite transpose_0. cbn [batch_run_with fst snd transpose].
    revert ss Hlen. induction Hx as [| xb xbs Hxb Hx IHx]; intros [| s ss] Hlen;
      simpl in Hlen; try discriminate; [reflexivity |].
    destruct xb; [| discriminate]. cbn [zipWith sequence_run_with].
    rewrite split_cons, IHx by congruence. reflexivity.
  - destruct (columns Hx) as (heads & tails & -> & Hh & Ht & Hall).
    rewrite transpose_cons_columns by congruence.
    rewrite sequence_run_with_columns by congruence.
    cbn [batch_run_with fst snd transpose].
    rewrite IH; [| assumption | rewrite zipWith_length; lia].
    cbn [fst snd]. rewrite zipWith_length.
    replace (Nat.min (length ss) (length heads)) with (length ss) by lia.
    reflexivity.
Qed.

(** One sequence through [VectorizedRNN]. *)
Lemma single_call_run (x : array2 R) (s : list R) :
  wf_array2 x -> ncols x = nin -> length s = ns ->
  run (VectorizedRNN_call single x s) w =
  (Ok (sequence_run_with f g (rows x) s), w).
Proof.
  intros Hwf Hx Hs. unfold wf_array2 in Hwf. rewrite Hx in Hwf.
  unfold VectorizedRNN_call, slices2. rewrite run_bind.
  assert (Hscan : run (scan (VectorizedRNN_single single) s (rows x)) w =
    (Ok (snd (sequence_run_with f g (rows x) s),
         fst (sequence_run_with f g (rows x) s)), w)).
  { revert s Hs. induction Hwf as [| x0 xs Hx0 Hxs IH]; intros s Hs;
      cbn [scan sequence_run_with].
    - now rewrite run_ret.
    - destruct (cell_single s x0 Hs Hx0) as [Hrun Hlen].
      rewrite run_bind. unfold VectorizedRNN_single at 1.
      rewrite run_bind, Hrun, run_bind, (layer_single _ Hlen), run_ret.
      cbn [fst snd]. rewrite run_bind, (IH _ Hlen). now rewrite run_ret. }
  rewrite Hscan, run_ret. now destruct (sequence_run_with f g (rows x) s).
Qed.

(** A time-major batch through the scan of [RNN]. *)
Lemma batch_scan_run (xts : list (list (list R))) (ss : list (list R)) :
  Forall (fun xt => length xt = length ss) xts ->
  Forall (Forall (fun x => length x = nin)) xts ->
  Forall (fun s => length s = ns) ss ->
  run (scan (RNN_single batch) {| ncols := ns; rows := ss |}
         (map (Array2 nin) xts)) w =
  (Ok ({| ncols := ns; rows := snd (batch_run_with f g xts ss) |},
       map (Array2 nout) (fst (batch_run_with f g xts ss))), w).
Proof.
  intros Hlen Hwf. revert ss Hlen.
  induction Hwf as [| xt xts Hxt Hxts IH]; intros ss Hlen Hss;
    cbn [scan batch_run_with map].
  - now rewrite run_ret.
  - inversion Hlen as [| ? ? Hl Hrest]; subst.
    assert (Hss' : Forall (fun s => length s = ns) (zipWith f ss xt)).
    { apply Forall_zipWith_in. intros s x Hs Hx.
      rewrite Forall_forall in Hss, Hxt. apply cell_single; auto. }
    rewrite run_bind. unfold RNN_single at 1.
    rewrite run_bind, (cell_batch (eq_sym Hl) Hss Hxt).
    rewrite run_bind, (layer_batch Hss'), run_ret. cbn [fst snd].
    rewrite run_bind, IH; [now rewrite run_ret | | exact Hss'].
    rewrite zipWith_length, <- Hl, Nat.min_id.
    eapply Forall_impl; [| exact Hrest]. intros a Ha. simpl in Ha. congruence.
Qed.

(** The two drivers on a well-shaped batch. *)
Lemma batch_and_sequences_run (B T : nat) (x : array3 R) (s : array2 R) :
  wf_array3 x -> dims12 x = (T, nin) -> length (items x) = B ->
  wf_array2 s -> ncols s = ns -> length (rows s) = B ->
  run (RNN_call batch x s) w =
    (Ok (map (Array2 nout)
           (fst (batch_run_with f g (transpose T (items x)) (rows s))),
         {| ncols := ns;
            rows := snd (batch_run_with f g (transpose T (items x))
                           (rows s)) |}), w) /\
  run (Vectorize (VectorizedRNN_call single) x s) w =
    (Ok (split (zipWith (sequence_run_with f g) (items x) (rows s))), w) /\
  split (zipWith (sequence_run_with f g) (items x) (rows s)) =
    (transpose B (fst (batch_run_with f g (transpose T (items x)) (rows s))),
     snd (batch_run_with f g (transpose T (items x)) (rows s))).
Proof.
  destruct x as [[T' nin'] xbs], s as [ns' ss].
  cbn [dims12 items ncols rows]. intros Hwf Hdims HB Hwfs Hns HBs.
  injection Hdims as -> ->. subst ns'.
  unfold wf_array3 in Hwf. cbn [dims12 items fst snd] in Hwf.
  unfold wf_array2 in Hwfs. cbn [ncols rows] in Hwfs.
  assert (HxT : Forall (fun xb => length xb = T) xbs).
  { eapply Forall_impl; [| exact Hwf]. now intros xb [H _]. }
  assert (Hxn : Forall (Forall (fun r => length r = nin)) xbs).
  { eapply Forall_impl; [| exact Hwf]. now intros xb [_ H]. }
  split; [| split].
  - unfold RNN_call, transpose102, slices3. cbn [dims12 items fst snd].
    rewrite run_bind, batch_scan_run; [now rewrite run_ret | | | exact Hwfs].
    + replace (length ss) with (length xbs) by congruence.
      apply transpose_rows_length.
    + apply transpose_Forall, Hxn.
  - unfold Vectorize, slices3, slices2. cbn [dims12 items fst snd ncols rows].
    rewrite HB, HBs, Nat.eqb_refl, run_bind, combine_map_fst.
    rewrite (@mapM_all_ok _ _ _ _
      (fun xs => sequence_run_with f g (rows (fst xs)) (snd xs))).
    + rewrite run_ret. do 3 f_equal. rewrite map_map. cbn [fst snd rows].
      apply (map_combine_zipWith (sequence_run_with f g)).
    + apply Forall_map.
      apply (@Forall_combine _ _ _
        (fun xb => length xb = T /\ Forall (fun r => length r = nin) xb)
        (fun sb => length sb = ns)); try assumption.
      intros xb sb [_ Hxb] Hsb. cbn [fst snd].
      apply single_call_run; [exact Hxb | reflexivity | exact Hsb].
  - rewrite <- HBs. apply sequences_with_are_transposed_batch;
      [exact HxT | congruence].
Qed.

End RowByRow.

Section BatchedAgainstRNN.

Context {R : Type} {SR : Scalar R}.

Lemma example_acts_row_by_row (nin ns nout : nat) (ub : bool)
    (o : objects R) :
  is_DDLRnnCell nin ns (rnn_cell o) -> is_Linear ns nout ub (out_layer o) ->
  acts_row_by_row nin ns nout r_VectorizedRNN r_RNN o.
Proof.
  intros Hd Hl.
  exists (ddl_step (rnn_cell o)), (affine (out_layer o)).
  split; [| split; [| split]].
  - intros s x Hs Hx. split; [| apply (ddl_step_length _ _ Hd)].
    cbn [cell r_VectorizedRNN]. rewrite rnn_cell_call_run. unfold outcome.
    now rewrite (DDLRnnCell_call_vec _ _ Hd Hs Hx).
  - intros s Hs. cbn [output_layer r_VectorizedRNN].
    rewrite out_layer_call_run. now rewrite (Linear_call_vec _ Hl Hs).
  - intros ss xs Hlen _ _. cbn [cell r_RNN]. rewrite rnn_cell_call_run.
    unfold outcome.
    now rewrite (@DDLRnnCell_call_array2 _ _ nin ns (rnn_cell o)
                   {| ncols := ns; rows := ss |}
                   {| ncols := nin; rows := xs |} Hd eq_refl eq_refl Hlen).
  - intros ss _. cbn [output_layer r_RNN]. rewrite out_layer_call_run.
    now rewrite (Linear_call_array2 _ Hl) by reflexivity.
Qed.

(** C2, as the code has it.  The batched driver is [Vectorize] of
    [VectorizedRNN] with [batch_axis=(0, 0)], the sequential driver is [RNN].
    For every cell and output layer that act on a batch row by row, and every
    well-shaped batch of [B] sequences of [T] elements with [B] states: [RNN]
    returns [T] outputs and a final state, the batched driver returns that
    final state, and its outputs are those of [RNN] with the time and batch
    axes transposed; and element [b] of what the batched driver returns is
    what [RNN] returns on sequence [b] alone, a batch of one, its outputs
    transposed.  The two-weight cell and an affine output layer act row by
    row, so this holds for the objects of the example, as its first two
    [assert]s say. *)
Theorem batched_driver_is_transposed_RNN :
  (forall (W : Type) (nin ns nout B T : nat)
          (single : Driver W (list R) (list R) (list R) (list R))
          (batch : Driver W (array2 R) (array2 R) (array2 R) (array2 R))
          (w : W) (x : array3 R) (s : array2 R),
     acts_row_by_row nin ns nout single batch w ->
     wf_array3 x -> dims12 x = (T, nin) -> length (items x) = B ->
     wf_array2 s -> ncols s = ns -> length (rows s) = B ->
     exists outputs final_state,
       outcome (RNN_call batch x s) w = Ok (outputs, final_state) /\
       length outputs = T /\
       outcome (Vectorize (VectorizedRNN_call single) x s) w =
         Ok (transpose B (map rows outputs), rows final_state) /\
       forall b xb sb,
         nth_error (items x) b = Some xb -> nth_error (rows s) b = Some sb ->
         exists outputs_b final_b y_b s_b,
           outcome (RNN_call batch {| dims12 := (T, nin); items := [xb] |}
                      {| ncols := ns; rows := [sb] |}) w =
             Ok (outputs_b, final_b) /\
           nth_error (transpose B (map rows outputs)) b = Some y_b /\
           nth_error (rows final_state) b = Some s_b /\
           transpose 1 (map rows outputs_b) = [y_b] /\
           rows final_b = [s_b]) /\
  (forall (nin ns nout : nat) (ub : bool) (o : objects R),
     is_DDLRnnCell nin ns (rnn_cell o) ->
     is_Linear ns nout ub (out_layer o) ->
     acts_row_by_row nin ns nout r_VectorizedRNN r_RNN o) /\
  (forall (nin ns nout B T : nat) (ub : bool) (o : objects R)
          (x : array3 R) (s : array2 R),
     is_DDLRnnCell nin ns (rnn_cell o) ->
     is_Linear ns nout ub (out_layer o) ->
     wf_array3 x -> dims12 x = (T, nin) -> length (items x) = B ->
     wf_array2 s -> ncols s = ns -> length (rows s) = B ->
     exists outputs final_state,
       outcome (RNN_call r_RNN x s) o = Ok (outputs, final_state) /\
       length outputs = T /\
       outcome (rnn_vec x s) o =
         Ok (transpose B (map rows outputs), rows final_state)).
Proof.
  assert (Hgen : forall (W : Type) (nin ns nout B T : nat)
          (single : Driver W (list R) (list R) (list R) (list R))
          (batch : Driver W (array2 R) (array2 R) (array2 R) (array2 R))
          (w : W) (x : array3 R) (s : array2 R),
     acts_row_by_row nin ns nout single batch w ->
     wf_array3 x -> dims12 x = (T, nin) -> length (items x) = B ->
     wf_array2 s -> ncols s = ns -> length (rows s) = B ->
     exists outputs final_state,
       outcome (RNN_call batch x s) w = Ok (outputs, final_state) /\
       length outputs = T /\
       outcome (Vectorize (VectorizedRNN_call single) x s) w =
         Ok (transpose B (map rows outputs), rows final_state) /\
       forall b xb sb,
         nth_error (items x) b = Some xb -> nth_error (rows s) b = Some sb ->
         exists outputs_b final_b y_b s_b,
           outcome (RNN_call batch {| dims12 := (T, nin); items := [xb] |}
                      {| ncols := ns; rows := [sb] |}) w =
             Ok (outputs_b, final_b) /\
           nth_error (transpose B (map rows outputs)) b = Some y_b /\
           nth_error (rows final_state) b = Some s_b /\
           transpose 1 (map rows outputs_b) = [y_b] /\
           rows final_b = [s_b]).
  { intros W nin ns nout B T single batch w x s
      (f & g & Hc1 & Hl1 & HcB & HlB) Hwf Hdims HB Hwfs Hns HBs.
    destruct (@batch_and_sequences_run R W nin ns nout f g single batch w
                Hc1 Hl1 HcB HlB B T x s Hwf Hdims HB Hwfs Hns HBs)
      as (Hrnn & Hvec & Hsplit).
    assert (Hrows : forall l : list (list (list R)),
              map rows (map (Array2 nout) l) = l).
    { intros l. rewrite map_map. cbn [rows]. apply map_id. }
    eexists _, _. split; [unfold outcome; rewrite Hrnn; reflexivity |].
    split.
    { rewrite length_map, batch_run_with_length.
      apply transpose_length. unfold wf_array3 in Hwf. rewrite Hdims in Hwf.
      eapply Forall_impl; [| exact Hwf]. now intros xb [H _]. }
    cbn [rows]. rewrite Hrows.
    split; [unfold outcome; rewrite Hvec, Hsplit; reflexivity |].
    intros b xb sb Hxb Hsb.
    assert (Hwf1 : wf_array3 {| dims12 := (T, nin); items := [xb] |}).
    { unfold wf_array3 in *. rewrite Hdims in Hwf. cbn [dims12 items].
      constructor; [| constructor].
      rewrite Forall_forall in Hwf. apply Hwf. eapply nth_error_In, Hxb. }
    assert (Hwfs1 : wf_array2 {| ncols := ns; rows := [sb] |}).
    { unfold wf_array2 in *. rewrite Hns in Hwfs. cbn [ncols rows].
      constructor; [| constructor].
      rewrite Forall_forall in Hwfs. apply Hwfs. eapply nth_error_In, Hsb. }
    destruct (@batch_and_sequences_run R W nin ns nout f g single batch w
                Hc1 Hl1 HcB HlB 1 T _ _ Hwf1 eq_refl eq_refl Hwfs1 eq_refl
                eq_refl) as (Hrnn1 & _ & Hsplit1).
    cbn [items rows zipWith] in Hrnn1, Hsplit1.
    pose proof (zipWith_nth_error (sequence_run_with f g) _ _ _ Hxb Hsb)
      as Hnth.
    destruct (sequence_run_with f g xb sb) as [yb fb].
    rewrite split_cons in Hsplit1. cbn [split fst snd] in Hsplit1.
    pose proof (f_equal fst Hsplit1) as Hy1.
    pose proof (f_equal snd Hsplit1) as Hs1. cbn [fst snd] in Hy1, Hs1.
    destruct (split_nth_error _ _ Hnth) as [Hy Hs].
    rewrite Hsplit in Hy, Hs. cbn [fst snd] in Hy, Hs.
    eexists _, _, _, _. split; [unfold outcome; rewrite Hrnn1; reflexivity |].
    cbn [rows]. rewrite Hrows.
    split; [exact Hy |]. split; [exact Hs |].
    split; [now rewrite <- Hy1 | now rewrite <- Hs1]. }
  split; [exact Hgen |]. split; [apply example_acts_row_by_row |].
  intros nin ns nout B T ub o x s Hd Hl Hwf Hdims HB Hwfs Hns HBs.
  destruct (Hgen (objects R) nin ns nout B T r_VectorizedRNN r_RNN o x s
              (@example_acts_row_by_row nin ns nout ub o Hd Hl) Hwf Hdims HB
              Hwfs Hns HBs)
    as (outputs & final_state & H1 & H2 & H3 & _).
  exists outputs, final_state. repeat split; assumption.
Qed.

End BatchedAgainstRNN.

(** ** Which axis is time *)

Lemma scan_length {W S X O} (f : S -> X -> exec W (S * O)) (xs : list X)
    (s : S) (w : W) (final : S) (outputs : list O) :
  outcome (scan f s xs) w = Ok (final, outputs) ->
  length outputs = length xs.
Proof.
  revert s w final outputs. induction xs as [| x xs IH];
    intros s w final outputs; cbn [scan].
  - unfold outcome. rewrite run_ret. cbn [fst]. intros H.
    injection H as _ <-. reflexivity.
  - rewrite outcome_bind. destruct (outcome (f s x) w) as [e | so];
      [discriminate |].
    rewrite outcome_bind.
    destruct (outcome (scan f (fst so) xs) (after (f s x) w))
      as [e | rest] eqn:Hrest; [discriminate |].
    unfold outcome. rewrite run_ret. cbn [fst]. intros H.
    injection H as _ <-. cbn [length]. f_equal.
    apply (IH (fst so) (after (f s x) w) (fst rest)).
    rewrite Hrest. now destruct rest.
Qed.

Section TimeAxis.

Context {R : Type} {SR : Scalar R}.

Lemma slices_of_transposed (x : array3 R) (T nin : nat) :
  wf_array3 x -> dims12 x = (T, nin) ->
  slices3 (transpose102 x) = map (time_slice x) (seq 0 T).
Proof.
  destruct x as [[T' nin'] xbs]. unfold wf_array3. cbn [dims12 items fst snd].
  intros Hwf Hdims. injection Hdims as -> ->.
  unfold slices3, transpose102, time_slice. cbn [dims12 items fst snd].
  rewrite (@transpose_by_index _ T xbs []), map_map; [reflexivity |].
  eapply Forall_impl; [| exact Hwf]. now intros xb [H _].
Qed.

(** C6, as the code has it.  The driver [RNN] takes its input batch-major,
    of shape [(B, T, nin)], and moves the time axis first itself: it makes [T]
    steps, step [t] on the [t]-th elements of all the sequences, and returns
    [T] outputs in the order of the steps.  The driver [VectorizedRNN] folds
    the leading axis of its input as presented and returns one output for
    each element of that axis, and the cell of the factorized driver folds the
    leading axis of its input in order. *)
Theorem RNN_call_takes_batch_major_input :
  (forall (W S O : Type) (self : Driver W S (array2 R) S O) (x : array3 R)
          (state : S) (T nin : nat),
     wf_array3 x -> dims12 x = (T, nin) ->
     RNN_call self x state =
       (fo <- scan (RNN_single self) state (map (time_slice x) (seq 0 T)) ;;
        let (final_state, output) := fo : S * list O in
        ret (output, final_state)) /\
     forall w outputs final_state,
       outcome (RNN_call self x state) w = Ok (outputs, final_state) ->
       length outputs = T) /\
  (forall (W S O : Type) (self : Driver W S (list R) S O) (x : array2 R)
          (state : S),
     VectorizedRNN_call self x state =
       (fo <- scan (VectorizedRNN_single self) state (rows x) ;;
        let (final_state, output) := fo : S * list O in
        ret (output, final_state)) /\
     forall w outputs final_state,
       outcome (VectorizedRNN_call self x state) w = Ok (outputs, final_state) ->
       length outputs = length (rows x)) /\
  (forall (nin ns : nat) (c : FactorizedRnnCell R) (state : list R)
          (x : array2 R),
     is_FactorizedRnnCell nin ns c -> ncols x = nin -> rows x <> [] ->
     length state = ns ->
     outcome (FactorizedRnnCell_call state x) c =
       Ok {| ncols := ns;
             rows := [fold_left (ddl_step (canonical c)) (rows x) state] |}).
Proof.
  split; [| split].
  - intros W S O self x state T nin Hwf Hdims.
    assert (Heq : RNN_call self x state =
      (fo <- scan (RNN_single self) state (map (time_slice x) (seq 0 T)) ;;
       let (final_state, output) := fo : S * list O in
       ret (output, final_state))).
    { unfold RNN_call. now rewrite (slices_of_transposed Hwf Hdims). }
    split; [exact Heq |].
    intros w outputs final_state. rewrite Heq, outcome_bind.
    destruct (outcome (scan _ _ _) w) as [e | [fin outs]] eqn:Hscan;
      [discriminate |].
    unfold outcome at 1. rewrite run_ret. cbn [fst]. intros H.
    injection H as <- _. rewrite (scan_length _ _ _ _ Hscan).
    now rewrite length_map, length_seq.
  - intros W S O self x state. split; [reflexivity |].
    intros w outputs final_state. unfold VectorizedRNN_call, slices2.
    rewrite outcome_bind.
    destruct (outcome (scan _ _ _) w) as [e | [fin outs]] eqn:Hscan;
      [discriminate |].
    unfold outcome at 1. rewrite run_ret. cbn [fst]. intros H.
    injection H as <- _. apply (scan_length _ _ _ _ Hscan).
  - intros nin ns c state x Hc Hx Hne Hs. unfold outcome.
    now rewrite (FactorizedRnnCell_call_run _ _ Hc Hx Hne Hs).
Qed.

End TimeAxis.

(** * The properties on concrete objects *)

(** Discharges the shape conditions of concrete objects and arrays. *)
Ltac shapes :=
  repeat first
    [ reflexivity
    | discriminate
    | split
    | apply Forall_nil
    | apply Forall_cons ].

Lemma FactorizedRnnCell_call_is_step_by_step_witness :
  exists final,
    outcome (step_by_step (slices2 Sample.xs) Sample.state0) Sample.ddl =
      Ok final /\
    reshape_1n final 2 = Ok {| ncols := 2; rows := [final] |} /\
    outcome (FactorizedRnnCell_call Sample.state0 Sample.xs) Sample.factorized =
      reshape_1n final 2.
Proof.
  apply (@FactorizedRnnCell_call_is_step_by_step Z _ 2 2 Sample.factorized
           Sample.ddl Sample.state0 Sample.xs); shapes.
Defined.

Lemma DDLRnnCell_call_is_elman_witness :
  exists new_state,
    run (DDLRnnCell_call Sample.state0 [1; 0]%Z) Sample.ddl =
      (Ok new_state, Sample.ddl) /\
    length new_state = 2 /\
    forall j, j < 2 ->
      nth j new_state zero =
      elman_component Sample.ddl Sample.state0 [1; 0]%Z j.
Proof.
  apply (@DDLRnnCell_call_is_elman Z _ 2 2 Sample.ddl Sample.state0
           [1; 0]%Z); shapes.
Defined.

Lemma FactorizedRnnCell_call_empty_sequence_witness :
  rows Sample.xs_empty = [] /\
  (exists e,
     outcome (FactorizedRnnCell_call Sample.state0 Sample.xs_empty)
       Sample.factorized = Err e) /\
  (ncols Sample.xs_empty = 2 ->
   outcome (FactorizedRnnCell_call Sample.state0 Sample.xs_empty)
     Sample.factorized = Err ValueError).
Proof.
  split; [reflexivity |].
  apply (@FactorizedRnnCell_call_empty_sequence Z _ 2 2 Sample.factorized
           Sample.state0 Sample.xs_empty); shapes.
Defined.

(** The lengths [4] and [1] are neither [nin = 3] nor [nstate = 2]; they add
    up to [5]. *)
Lemma MyRnnCell_checks_concatenation_only_witness :
  length [1; 2; 3; 4]%Z + length [5]%Z = 3 + 2 /\
  exists new_state,
    run (MyRnnCell_call [5]%Z [1; 2; 3; 4]%Z) Sample.my =
      (Ok new_state, Sample.my) /\
    length new_state = 2.
Proof.
  split; [reflexivity |].
  apply (@MyRnnCell_checks_concatenation_only Z _ 3 2 Sample.my [5]%Z
           [1; 2; 3; 4]%Z); [| reflexivity].
  eexists _, _, _. shapes.
Defined.

Lemma wrong_input_length_is_ShapeError_witness :
  length (repeat 0%Z 10) = 10 /\ length [1; 2; 3; 4]%Z <> 3 /\
  outcome (MyRnnCell_call (repeat 0%Z 10) [1; 2; 3; 4]%Z) Sample.my_3_10 =
    Err ShapeError /\
  outcome (DDLRnnCell_call (repeat 0%Z 10) [1; 2; 3; 4]%Z) Sample.ddl_3_10 =
    Err ShapeError /\
  outcome (FactorizedRnnCell_call (repeat 0%Z 10)
             {| ncols := 4; rows := [[1; 2; 3; 4]%Z] |})
    Sample.factorized_3_10 = Err ShapeError.
Proof.
  split; [reflexivity |]. split; [discriminate |].
  destruct (@wrong_input_length_is_ShapeError Z _ (repeat 0%Z 10)
              [1; 2; 3; 4]%Z {| ncols := 4; rows := [[1; 2; 3; 4]%Z] |})
    as (Hmy & Hddl & Hfact); [reflexivity | discriminate | reflexivity |].
  split; [| split].
  - apply Hmy. eexists _, _, _. shapes.
  - apply Hddl. shapes.
  - apply Hfact. shapes.
Defined.

Lemma FactorizedRNN_call_outputs_final_state_witness :
  exists final w1,
    outcome (step_by_step (slices2 Sample.xs) Sample.state0)
      (canonical (factorized_cell Sample.store)) = Ok final /\
    run (cell (factorized_driver factorized_cell set_factorized_cell
                 out_layer_call) Sample.state0 Sample.xs) Sample.store =
      (Ok {| ncols := 2; rows := [final] |}, w1) /\
    run (FactorizedRNN_call
           (factorized_driver factorized_cell set_factorized_cell
              out_layer_call) Sample.xs Sample.state0) Sample.store =
      run (output <- output_layer
                       (factorized_driver factorized_cell set_factorized_cell
                          out_layer_call)
                       {| ncols := 2; rows := [final] |} ;;
           ret (output, final)) w1.
Proof.
  apply (@FactorizedRNN_call_outputs_final_state Z _ (objects Z) (array2 Z)
           factorized_cell set_factorized_cell out_layer_call 2 2
           Sample.store Sample.state0 Sample.xs); shapes.
Defined.

(** On a square batch the two readings of the leading axis are both
    well-shaped, and they differ: [RNN] takes [[1]; [2]] as the first
    sequence of the batch, so its final states are [1 + 2] and [3 + 4]; had it
    folded the leading axis as presented they would be [1 + 3] and [2 + 4]. *)
Lemma RNN_call_reorders_its_input :
  outcome (RNN_call r_RNN Sample.batch_1 Sample.states_1) Sample.store_1 =
    Ok ([ {| ncols := 1%nat; rows := [[1]; [3]] |};
          {| ncols := 1%nat; rows := [[3]; [7]] |} ],
        {| ncols := 1%nat; rows := [[3]; [7]] |})%Z /\
  outcome (RNN_call_as_presented r_RNN Sample.batch_1 Sample.states_1)
    Sample.store_1 =
    Ok ([ {| ncols := 1%nat; rows := [[1]; [2]] |};
          {| ncols := 1%nat; rows := [[4]; [6]] |} ],
        {| ncols := 1%nat; rows := [[4]; [6]] |})%Z /\
  outcome (RNN_call r_RNN Sample.batch_1 Sample.states_1) Sample.store_1 <>
  outcome (RNN_call_as_presented r_RNN Sample.batch_1 Sample.states_1)
    Sample.store_1.
Proof.
  split; [vm_compute; reflexivity |]. split; [vm_compute; reflexivity |].
  intros H. vm_compute in H. discriminate H.
Qed.

Lemma RNN_call_takes_batch_major_input_witness :
  wf_array3 Sample.batch /\ dims12 Sample.batch = (2, 2) /\
  RNN_call r_RNN Sample.batch Sample.states =
    (fo <- scan (RNN_single r_RNN) Sample.states
             (map (time_slice Sample.batch) (seq 0 2)) ;;
     let (final_state, output) := fo : array2 Z * list (array2 Z) in
     ret (output, final_state)) /\
  forall w outputs final_state,
    outcome (RNN_call r_RNN Sample.batch Sample.states) w =
      Ok (outputs, final_state) ->
    length outputs = 2.
Proof.
  assert (Hwf : wf_array3 Sample.batch) by shapes.
  split; [exact Hwf |]. split; [reflexivity |].
  apply (proj1 (@RNN_call_takes_batch_major_input Z _) (objects Z) (array2 Z)
           (array2 Z) r_RNN Sample.batch Sample.states 2 2 Hwf eq_refl).
Defined.

(** With the simple cell, for [nin = 3] and [nstate = 2], on a batch of one
    sequence of one element: the batched driver returns the state [[0; 7]]
    that the cell computes from the input joined to the state, and [RNN] on
    the same cell object and the same batch raises, since the cell stacks the
    row of the input on the row of the state.  So the two drivers do not
    return the same for every cell. *)
Lemma batched_driver_returns_where_RNN_raises :
  is_MyRnnCell 3 2 Sample.my /\
  wf_array3 Sample.batch_my /\ wf_array2 Sample.states_my /\
  outcome (Vectorize (VectorizedRNN_call my_VectorizedRNN) Sample.batch_my
             Sample.states_my) Sample.my =
    Ok ([[[0; 7]]], [[0; 7]])%Z /\
  outcome (RNN_call my_RNN Sample.batch_my Sample.states_my) Sample.my =
    Err ShapeError /\
  ~ (exists outputs final_state,
       outcome (RNN_call my_RNN Sample.batch_my Sample.states_my) Sample.my =
         Ok (outputs, final_state) /\
       outcome (Vectorize (VectorizedRNN_call my_VectorizedRNN)
                  Sample.batch_my Sample.states_my) Sample.my =
         Ok (transpose 1 (map rows outputs), rows final_state)).
Proof.
  split; [eexists _, _, _; shapes |]. split; [shapes |]. split; [shapes |].
  split; [vm_compute; reflexivity |]. split; [vm_compute; reflexivity |].
  intros (outputs & final_state & H & _). vm_compute in H. discriminate H.
Qed.

Lemma batched_driver_is_transposed_RNN_witness :
  acts_row_by_row 2 2 1 r_VectorizedRNN r_RNN Sample.store /\
  exists outputs final_state,
    outcome (RNN_call r_RNN Sample.batch Sample.states) Sample.store =
      Ok (outputs, final_state) /\
    length outputs = 2 /\
    outcome (Vectorize (VectorizedRNN_call r_VectorizedRNN) Sample.batch
               Sample.states) Sample.store =
      Ok (transpose 2 (map rows outputs), rows final_state) /\
    forall b xb sb,
      nth_error (items Sample.batch) b = Some xb ->
      nth_error (rows Sample.states) b = Some sb ->
      exists outputs_b final_b y_b s_b,
        outcome (RNN_call r_RNN {| dims12 := (2, 2); items := [xb] |}
                   {| ncols := 2; rows := [sb] |}) Sample.store =
          Ok (outputs_b, final_b) /\
        nth_error (transpose 2 (map rows outputs)) b = Some y_b /\
        nth_error (rows final_state) b = Some s_b /\
        transpose 1 (map rows outputs_b) = [y_b] /\
        rows final_b = [s_b].
Proof.
  assert (Hrows : acts_row_by_row 2 2 1 r_VectorizedRNN r_RNN Sample.store).
  { apply (proj1 (proj2 (@batched_driver_is_transposed_RNN Z _)) 2 2 1 true
             Sample.store); shapes. }
  split; [exact Hrows |].
  apply (proj1 (@batched_driver_is_transposed_RNN Z _) (objects Z) 2 2 1 2 2
           r_VectorizedRNN r_RNN Sample.store Sample.batch Sample.states
           Hrows); shapes.
Defined.

(** The two stores differ in the factor cache only. *)
Lemma forward_pass_is_deterministic_witness :
  learned Sample.store = learned Sample.store_used /\
  factorized_cell Sample.store <> factorized_cell Sample.store_used /\
  outcome (RNN_call r_RNN Sample.batch Sample.states) Sample.store =
    outcome (RNN_call r_RNN Sample.batch Sample.states) Sample.store_used /\
  outcome (VectorizedRNN_call r_VectorizedRNN Sample.xs Sample.state0)
    Sample.store =
    outcome (VectorizedRNN_call r_VectorizedRNN Sample.xs Sample.state0)
      Sample.store_used /\
  outcome (rnn_vec Sample.batch Sample.states) Sample.store =
    outcome (rnn_vec Sample.batch Sample.states) Sample.store_used /\
  outcome (FactorizedRNN_call f_FactorizedRNN Sample.xs Sample.state0)
    Sample.store =
    outcome (FactorizedRNN_call f_FactorizedRNN Sample.xs Sample.state0)
      Sample.store_used.
Proof.
  split; [reflexivity |]. split; [discriminate |].
  apply (proj1 (proj2 (@forward_pass_is_deterministic Z _)) Sample.store
           Sample.store_used Sample.batch Sample.states Sample.xs
           Sample.state0 eq_refl).
Defined.

Lemma forward_calls_keep_the_learned_parameters_witness :
  preserves learned (RNN_call r_RNN Sample.batch Sample.states) /\
  learned (after (FactorizedRNN_call f_FactorizedRNN Sample.xs Sample.state0)
             Sample.store) = learned Sample.store /\
  factor (after (FactorizedRnnCell_call Sample.state0 Sample.xs)
            Sample.factorized) =
    Some {| ncols := 2; rows := [[1; 2]; [3; -4]; [5; 0]]%Z |}.
Proof.
  pose proof (@forward_calls_keep_the_learned_parameters Z _)
    as (_ & _ & Hfact & Hdrivers & Hstore).
  split; [| split].
  - apply (proj1 (Hdrivers (objects Z) _ (array2 Z) (array2 Z) learned)).
    + intros. apply rnn_cell_call_frames.
    + intros. apply out_layer_call_frames.
  - apply (Hstore Sample.store Sample.batch Sample.states Sample.xs
             Sample.state0).
  - rewrite (proj2 (Hfact Sample.factorized Sample.state0 Sample.xs)).
    reflexivity.
Defined.

(** * Further properties of the cells and drivers *)

Section WhenACellReturns.

Context {R : Type} {SR : Scalar R}.

Implicit Types (state x : list R).

(** ** When a call returns *)

Lemma DDLRnnCell_call_state_mismatch nin ns (self : DDLRnnCell R) state x :
  is_DDLRnnCell nin ns self -> length state <> ns ->
  run (DDLRnnCell_call state x) self = (Err ShapeError, self).
Proof.
  intros [Hx Hh] Hs. unfold DDLRnnCell_call.
  rewrite run_bind, run_get, run_bind, run_pure, Linear_call_vec_mismatch;
    [reflexivity |].
  destruct Hh as (Hr & _). now rewrite Hr.
Qed.

(** The two-weight cell returns exactly when both vectors have the declared
    lengths; every other call raises a shape error, whichever of the two is
    wrong. *)
Theorem DDLRnnCell_call_returns_iff (nin ns : nat) (self : DDLRnnCell R)
    (state x : list R) :
  is_DDLRnnCell nin ns self ->
  ((exists new_state, outcome (DDLRnnCell_call state x) self = Ok new_state)
   <-> length state = ns /\ length x = nin) /\
  (length state <> ns \/ length x <> nin ->
   outcome (DDLRnnCell_call state x) self = Err ShapeError).
Proof.
  intros Hd.
  assert (Hbad : length state <> ns \/ length x <> nin ->
                 outcome (DDLRnnCell_call state x) self = Err ShapeError).
  { unfold outcome. destruct (Nat.eq_dec (length state) ns) as [Hs | Hs].
    - intros [Hs' | Hx]; [contradiction |].
      now rewrite (DDLRnnCell_call_mismatch _ _ Hd Hs Hx).
    - intros _.
      now rewrite (@DDLRnnCell_call_state_mismatch nin ns self state x Hd Hs). }
  split; [| exact Hbad]. split.
  - intros [new_state Hok].
    destruct (Nat.eq_dec (length state) ns) as [Hs | Hs];
      [| rewrite Hbad in Hok by (now left); discriminate].
    destruct (Nat.eq_dec (length x) nin) as [Hx | Hx];
      [| rewrite Hbad in Hok by (now right); discriminate].
    now split.
  - intros [Hs Hx]. exists (ddl_step self state x). unfold outcome.
    now rewrite (DDLRnnCell_call_vec _ _ Hd Hs Hx).
Qed.

Lemma MyRnnCell_call_total_length nin ns (self : MyRnnCell R) state x :
  is_MyRnnCell nin ns self -> length x + length state = nin + ns ->
  exists new_state, outcome (MyRnnCell_call state x) self = Ok new_state.
Proof.
  intros (l1 & l2 & act & Hop & H1 & H2) Hlen.
  exists (map act (affine l2 (affine l1 (x ++ state)))).
  unfold outcome, MyRnnCell_call. rewrite run_bind, run_get, run_pure, Hop.
  unfold Sequential_call, concatenate1. cbn [for_each layer_call fst].
  rewrite (Linear_call_vec _ H1) by (rewrite length_app; exact Hlen).
  cbn [bind Monad_result Monad_either].
  now rewrite (Linear_call_vec _ H2) by apply (affine_length _ H1).
Qed.

(** The simple cell returns exactly when the two lengths add up to
    [nin + nstate]; every other call raises a shape error.  So a state that is
    too long is accepted with an input that is too short by as much, and
    rejected with an input of the declared length. *)
Theorem MyRnnCell_call_returns_iff (nin ns : nat) (self : MyRnnCell R)
    (state x : list R) :
  is_MyRnnCell nin ns self ->
  ((exists new_state, outcome (MyRnnCell_call state x) self = Ok new_state)
   <-> length x + length state = nin + ns) /\
  (length x + length state <> nin + ns ->
   outcome (MyRnnCell_call state x) self = Err ShapeError).
Proof.
  intros Hc.
  assert (Hbad : length x + length state <> nin + ns ->
                 outcome (MyRnnCell_call state x) self = Err ShapeError).
  { intros Hlen. unfold outcome.
    now rewrite (MyRnnCell_call_mismatch _ _ Hc Hlen). }
  split; [| exact Hbad]. split.
  - intros [new_state Hok].
    destruct (Nat.eq_dec (length x + length state) (nin + ns)) as [H | H];
      [exact H | rewrite Hbad in Hok by (exact H); discriminate].
  - apply (MyRnnCell_call_total_length _ _ Hc).
Qed.

Lemma FactorizedRnnCell_call_state_mismatch nin ns
    (self : FactorizedRnnCell R) state (x : array2 R) :
  is_FactorizedRnnCell nin ns self -> ncols x = nin -> rows x <> [] ->
  length state <> ns ->
  outcome (FactorizedRnnCell_call state x) self = Err ShapeError.
Proof.
  intros (Hi & Hn & Hns) Hx Hne Hs. unfold outcome, FactorizedRnnCell_call.
  rewrite run_bind, run_get, run_bind, run_pure, (Linear_call_array2 _ Hi Hx).
  rewrite run_bind, run_put. destruct (rows x) as [| r rs]; [contradiction |].
  cbn [length seq for_each]. rewrite !run_bind.
  unfold FactorizedRnnCell_step at 1.
  rewrite run_bind, run_get, run_bind, run_pure. cbn [wn set_factor].
  rewrite Linear_call_vec_mismatch; [reflexivity |].
  destruct Hn as (Hr & _). now rewrite Hr.
Qed.

(** The factorized cell returns exactly when the sequence has the declared
    width and at least one element and the state has the declared length.
    A wrong width raises a shape error, then an empty sequence raises the
    error of the empty concatenation (whatever the state: its length is never
    looked at), then a wrong state length raises a shape error. *)
Theorem FactorizedRnnCell_call_returns_iff (nin ns : nat)
    (self : FactorizedRnnCell R) (state : list R) (x : array2 R) :
  is_FactorizedRnnCell nin ns self ->
  ((exists out, outcome (FactorizedRnnCell_call state x) self = Ok out)
   <-> ncols x = nin /\ rows x <> [] /\ length state = ns) /\
  (ncols x <> nin ->
   outcome (FactorizedRnnCell_call state x) self = Err ShapeError) /\
  (ncols x = nin -> rows x = [] ->
   outcome (FactorizedRnnCell_call state x) self = Err ValueError) /\
  (ncols x = nin -> rows x <> [] -> length state <> ns ->
   outcome (FactorizedRnnCell_call state x) self = Err ShapeError).
Proof.
  intros Hc.
  assert (H1 : ncols x <> nin ->
               outcome (FactorizedRnnCell_call state x) self = Err ShapeError).
  { intros Hx. unfold outcome.
    now rewrite (FactorizedRnnCell_call_mismatch state x Hc Hx). }
  assert (H2 : ncols x = nin -> rows x = [] ->
               outcome (FactorizedRnnCell_call state x) self = Err ValueError).
  { intros Hx Hrows. destruct Hc as (Hi & Hn & Hns).
    unfold outcome, FactorizedRnnCell_call.
    rewrite run_bind, run_get, run_bind, run_pure, (Linear_call_array2 _ Hi Hx).
    rewrite run_bind, run_put, Hrows. cbn [length seq for_each].
    rewrite run_bind, run_ret, run_bind, run_pure. reflexivity. }
  pose proof (fun Hx Hne => @FactorizedRnnCell_call_state_mismatch
                              nin ns self state x Hc Hx Hne) as H3.
  split; [| repeat split; assumption]. split.
  - intros [out Hok].
    destruct (Nat.eq_dec (ncols x) nin) as [Hx | Hx];
      [| rewrite H1 in Hok by (exact Hx); discriminate].
    destruct (rows x) as [| r rs] eqn:Hrows;
      [rewrite H2 in Hok by (auto); discriminate |].
    destruct (Nat.eq_dec (length state) ns) as [Hs | Hs].
    + repeat split; [exact Hx | discriminate | exact Hs].
    + rewrite H3 in Hok; [discriminate | exact Hx | discriminate | exact Hs].
  - intros (Hx & Hne & Hs). eexists. unfold outcome.
    now rewrite (FactorizedRnnCell_call_run _ _ Hc Hx Hne Hs).
Qed.

End WhenACellReturns.

(** ** A sequence processed in two parts *)

Section Chunks.

Context {R : Type} {SR : Scalar R}.

(** A sequence may be given to the factorized cell in two parts of at least
    one element each: the first call returns a state [mid] as an array of one
    row, and a second call on the same object, from [mid] and on the second
    part, returns what one call on the whole sequence returns, although each
    call overwrites the factor cache. *)
Theorem FactorizedRnnCell_call_in_two_parts (nin ns : nat)
    (self : FactorizedRnnCell R) (state : list R) (xs ys : list (list R)) :
  is_FactorizedRnnCell nin ns self -> length state = ns ->
  xs <> [] -> ys <> [] ->
  exists mid,
    outcome (FactorizedRnnCell_call state {| ncols := nin; rows := xs |}) self =
      Ok {| ncols := ns; rows := [mid] |} /\
    outcome (FactorizedRnnCell_call mid {| ncols := nin; rows := ys |})
      (after (FactorizedRnnCell_call state {| ncols := nin; rows := xs |})
         self) =
    outcome (FactorizedRnnCell_call state
               {| ncols := nin; rows := xs ++ ys |}) self.
Proof.
  intros Hc Hs Hxs Hys.
  exists (fold_left (ddl_step (canonical self)) xs state).
  assert (Hmid : length (fold_left (ddl_step (canonical self)) xs state) = ns)
    by apply (fold_ddl_step_length _ _ (canonical_is_DDLRnnCell Hc) Hs).
  unfold outcome, after.
  rewrite (@FactorizedRnnCell_call_run _ _ nin ns self
             {| ncols := nin; rows := xs |} state Hc eq_refl Hxs Hs).
  cbn [fst snd]. split; [reflexivity |].
  set (f := {| ncols := ns; rows := map (affine (win self)) xs |}).
  rewrite (@FactorizedRnnCell_call_run _ _ nin ns (set_factor f self)
             {| ncols := nin; rows := ys |} _ Hc eq_refl Hys Hmid).
  rewrite (@FactorizedRnnCell_call_run _ _ nin ns self
             {| ncols := nin; rows := xs ++ ys |} state Hc eq_refl);
    [| destruct xs; [contradiction | discriminate] | exact Hs].
  cbn [fst rows]. now rewrite fold_left_app.
Qed.

End Chunks.

Section FactorizedAgainstRecurrent.

Context {R : Type} {SR : Scalar R}.

(** ** The factorized driver against the recurrent one *)

Lemma sequence_run_final (d : DDLRnnCell R) (ol : Linear R)
    (xs : list (list R)) (s : list R) :
  snd (sequence_run d ol xs s) = fold_left (ddl_step d) xs s.
Proof.
  revert s. induction xs as [| x xs IH]; intros s; cbn [sequence_run snd];
    [reflexivity | apply IH].
Qed.

Lemma sequence_run_last (d : DDLRnnCell R) (ol : Linear R)
    (xs : list (list R)) (s : list R) :
  xs <> [] ->
  last (fst (sequence_run d ol xs s)) [] =
  affine ol (snd (sequence_run d ol xs s)).
Proof.
  revert s. induction xs as [| x xs IH]; intros s Hne; [contradiction |].
  destruct xs as [| x' xs]; [reflexivity |].
  cbn [sequence_run fst snd] in *.
  rewrite <- (IH (ddl_step d s x)) by discriminate. reflexivity.
Qed.

Lemma sequence_run_shapes nin ns nout ub (d : DDLRnnCell R) (ol : Linear R)
    (xs : list (list R)) (s : list R) :
  is_DDLRnnCell nin ns d -> is_Linear ns nout ub ol -> length s = ns ->
  length (fst (sequence_run d ol xs s)) = length xs /\
  Forall (fun y => length y = nout) (fst (sequence_run d ol xs s)) /\
  length (snd (sequence_run d ol xs s)) = ns.
Proof.
  intros Hd Hl. revert s. induction xs as [| x xs IH]; intros s Hs;
    cbn [sequence_run fst snd length].
  - repeat split; [constructor | assumption].
  - destruct (IH (ddl_step d s x)) as (H1 & H2 & H3);
      [apply (ddl_step_length _ _ Hd) |].
    repeat split; [now rewrite H1 | | exact H3].
    constructor; [apply (affine_length _ Hl) | exact H2].
Qed.

(** With the weights of [rnn_cell] in [factorized_cell], on one sequence of
    [T >= 1] elements: the recurrent driver returns [T] outputs of length
    [nout] and a final state of length [nstate]; the factorized driver
    returns that same final state, and as its one output, of shape
    [(1, nout)], the last of these [T] outputs. *)
Theorem FactorizedRNN_call_is_last_output (nin ns nout : nat) (ub : bool)
    (o : objects R) (x : array2 R) (state : list R) :
  is_FactorizedRnnCell nin ns (factorized_cell o) ->
  canonical (factorized_cell o) = rnn_cell o ->
  is_Linear ns nout ub (out_layer o) ->
  wf_array2 x -> ncols x = nin -> rows x <> [] -> length state = ns ->
  exists outputs final,
    outcome (VectorizedRNN_call r_VectorizedRNN x state) o =
      Ok (outputs, final) /\
    length outputs = length (rows x) /\
    Forall (fun y => length y = nout) outputs /\
    length final = ns /\
    outcome (FactorizedRNN_call f_FactorizedRNN x state) o =
      Ok ({| ncols := nout; rows := [last outputs []] |}, final).
Proof.
  intros Hf Hcan Hl Hwf Hx Hne Hs.
  pose proof (canonical_is_DDLRnnCell Hf) as Hd. rewrite Hcan in Hd.
  destruct (@sequence_run_shapes nin ns nout ub (rnn_cell o) (out_layer o)
              (rows x) state Hd Hl Hs) as (Hlen & Hall & Hfin).
  exists (fst (sequence_run (rnn_cell o) (out_layer o) (rows x) state)),
    (snd (sequence_run (rnn_cell o) (out_layer o) (rows x) state)).
  split; [| repeat split; try assumption].
  - unfold outcome.
    rewrite (@VectorizedRNN_call_run _ _ nin ns nout ub o Hd Hl x state
               Hwf Hx Hs).
    cbn [fst]. now destruct (sequence_run _ _ _ _).
  - rewrite sequence_run_last by exact Hne. rewrite sequence_run_final.
    unfold outcome, FactorizedRNN_call. cbn [cell output_layer f_FactorizedRNN].
    rewrite run_bind, run_zoom.
    rewrite (FactorizedRnnCell_call_run _ _ Hf Hx Hne Hs). cbn [fst snd].
    rewrite run_bind, out_layer_call_run. cbn [out_layer set_factorized_cell].
    rewrite (Linear_call_array2 _ Hl) by reflexivity.
    rewrite run_bind, run_pure. unfold index_last. cbn [rows rev app map].
    cbn [ret Monad_result Monad_either]. rewrite run_ret. cbn [fst].
    now rewrite Hcan.
Qed.

(** Whatever the cell and the arguments: an array that the call of the
    factorized cell returns has one row, of length [self.nstate]. *)
Lemma FactorizedRnnCell_call_returns_one_row (c : FactorizedRnnCell R)
    (state : list R) (x out : array2 R) :
  outcome (FactorizedRnnCell_call state x) c = Ok out ->
  exists r, out = {| ncols := nstate c; rows := [r] |} /\ length r = nstate c.
Proof.
  unfold outcome, FactorizedRnnCell_call.
  rewrite run_bind, run_get, run_bind, run_pure.
  destruct (Linear_call (win c) x) as [e | f]; [discriminate |].
  rewrite run_bind, run_put, run_bind.
  pose proof (@preserves_for_each _ _ (fun c0 : FactorizedRnnCell R => c0)
                _ _ (seq 0 (length (rows x))) FactorizedRnnCell_step
                FactorizedRnnCell_step_read_only (state, [])
                (set_factor f c)) as Hkeep.
  unfold after in Hkeep.
  destruct (run (for_each _ _ _) (set_factor f c)) as [[e | [st output]] c1];
    [discriminate |].
  cbn [snd] in Hkeep. subst c1. rewrite run_bind, run_pure.
  destruct (concatenate2 output) as [e | outputs]; [discriminate |].
  rewrite run_bind, run_get, run_pure. unfold reshape_1n.
  cbn [nstate set_factor fst].
  destruct (Nat.eqb_spec (length st) (nstate c)) as [Hlen | Hlen];
    [| discriminate].
  cbn [ret Monad_result Monad_either]. intros H. injection H as <-.
  now exists st.
Qed.

(** The two [assert]s that end the script hold on every input on which the
    script reaches them: when [out = factorized_cell(s0, x0)] and
    [out2 = out_layer(out)] return, then [y5 = f(x0, s0)], called on the same
    objects after them, returns too, [y5[0]] is [out2] and [y5[1]] is
    [out[-1]], although the first call filled the factor cache. *)
Theorem factorized_script_asserts_hold (o : objects R) (x0 : array2 R)
    (s0 : list R) (out out2 : array2 R) :
  outcome (zoom factorized_cell set_factorized_cell
             (FactorizedRnnCell_call s0 x0)) o = Ok out ->
  Linear_call (out_layer o) out = Ok out2 ->
  exists last_row,
    index_last out = Ok last_row /\
    outcome (factorized_script x0 s0) o = Ok (out, out2, (out2, last_row)).
Proof.
  intros Hout Hout2.
  set (m := zoom factorized_cell set_factorized_cell
              (FactorizedRnnCell_call s0 x0)) in *.
  destruct (factorized_cell_call_frames s0 x0) as [Hkeep Hdet]. fold m in Hkeep, Hdet.
  assert (Hrow : exists r, out = {| ncols := nstate (factorized_cell o);
                                    rows := [r] |}).
  { unfold outcome, m in Hout. rewrite run_zoom in Hout. cbn [fst] in Hout.
    destruct (FactorizedRnnCell_call_returns_one_row _ _ _ Hout) as (r & Hr & _).
    now exists r. }
  destruct Hrow as [r Hr]. exists r.
  split; [rewrite Hr; reflexivity |].
  assert (Hlayer : forall o', learned o' = learned o ->
            run (out_layer_call out) o' = (Ok out2, o')).
  { intros o' Ho'. rewrite out_layer_call_run.
    unfold learned in Ho'. injection Ho' as _ -> _. now rewrite Hout2. }
  assert (Hcell : forall o', learned o' = learned o -> outcome m o' = Ok out).
  { intros o' Ho'. rewrite <- Hout. now apply Hdet. }
  unfold factorized_script. fold m.
  rewrite outcome_bind, Hout, outcome_bind.
  unfold outcome at 1. rewrite (Hlayer _ (Hkeep o)). cbn [fst].
  unfold after at 1. rewrite (Hlayer _ (Hkeep o)). cbn [snd].
  rewrite outcome_bind.
  unfold FactorizedRNN_call at 1. cbn [cell output_layer f_FactorizedRNN].
  fold m. rewrite outcome_bind, (Hcell _ (Hkeep o)), outcome_bind.
  assert (Hkeep2 : learned (after m (after m o)) = learned o)
    by now rewrite !Hkeep.
  unfold outcome at 1. rewrite (Hlayer _ Hkeep2). cbn [fst].
  rewrite outcome_bind. unfold outcome at 1. rewrite run_pure. cbn [fst].
  rewrite Hr at 1. unfold index_last. cbn [rows rev app].
  cbn [ret Monad_result Monad_either].
  unfold outcome. now rewrite !run_ret.
Qed.

End FactorizedAgainstRecurrent.

(** ** Cells on batches *)

Lemma zipWith_repeat_l {A B C} (f : A -> B -> C) (a : A) (l : list B) :
  zipWith f (repeat a (length l)) l = map (f a) l.
Proof.
  induction l as [| c l IH]; simpl; [reflexivity | now rewrite IH].
Qed.

Lemma Forall_zipWith {A B C} (P : C -> Prop) (f : A -> B -> C)
    (l1 : list A) (l2 : list B) :
  (forall a c, P (f a c)) -> Forall P (zipWith f l1 l2).
Proof.
  intros H. revert l2. induction l1 as [| a l1 IH]; intros [| c l2]; simpl;
    constructor; auto.
Qed.

Section Batches.

Context {R : Type} {SR : Scalar R}.

Lemma bcast_dim_one_l (m : nat) : bcast_dim 1 m = Ok m.
Proof.
  unfold bcast_dim. destruct (Nat.eqb_spec 1 m) as [<- | Hm]; reflexivity.
Qed.

Lemma batch_run_shapes nin ns nout ub (d : DDLRnnCell R) (ol : Linear R)
    (xts : list (list (list R))) (ss : list (list R)) :
  is_DDLRnnCell nin ns d -> is_Linear ns nout ub ol ->
  Forall (fun xt => length xt = length ss) xts ->
  Forall (fun s => length s = ns) ss ->
  Forall (fun m => length m = length ss /\
                   Forall (fun y => length y = nout) m)
    (fst (batch_run d ol xts ss)) /\
  length (snd (batch_run d ol xts ss)) = length ss /\
  Forall (fun s => length s = ns) (snd (batch_run d ol xts ss)).
Proof.
  intros Hd Hl Hxts. revert ss Hxts.
  induction xts as [| xt xts IH]; intros ss Hxts Hss;
    cbn [batch_run fst snd].
  - repeat split; [constructor | assumption].
  - inversion Hxts as [| ? ? Hxt Hrest]; subst.
    assert (Hlen : length (zipWith (ddl_step d) ss xt) = length ss)
      by (rewrite zipWith_length; lia).
    destruct (IH (zipWith (ddl_step d) ss xt)) as (H1 & H2 & H3).
    + rewrite Hlen. exact Hrest.
    + apply Forall_zipWith. intros s x. apply (ddl_step_length _ _ Hd).
    + rewrite Hlen in H1, H2. repeat split; [| exact H2 | exact H3].
      constructor; [| exact H1]. split; [now rewrite length_map |].
      apply Forall_map, Forall_forall. intros s _.
      apply (affine_length _ Hl).
Qed.

(** The shapes of what [RNN(rnn_cell, out_layer)] returns on a batch-major
    input of shape [(B, T, nin)] and states of shape [(B, nstate)]: [T]
    outputs, in the order of the steps, each of shape [(B, nout)], and a
    final state of shape [(B, nstate)]; so the output is time-major although
    the input is batch-major. *)
Theorem RNN_call_result_shapes (nin ns nout B T : nat) (ub : bool)
    (o : objects R) (x : array3 R) (s : array2 R) :
  is_DDLRnnCell nin ns (rnn_cell o) ->
  is_Linear ns nout ub (out_layer o) ->
  wf_array3 x -> dims12 x = (T, nin) -> length (items x) = B ->
  wf_array2 s -> ncols s = ns -> length (rows s) = B ->
  exists outputs final_state,
    outcome (RNN_call r_RNN x s) o = Ok (outputs, final_state) /\
    length outputs = T /\
    Forall (fun y => ncols y = nout /\ length (rows y) = B /\ wf_array2 y)
      outputs /\
    ncols final_state = ns /\ length (rows final_state) = B /\
    wf_array2 final_state.
Proof.
  intros Hd Hl Hwf Hdims HB Hwfs Hns HBs.
  destruct x as [[T' nin'] xbs], s as [ns' ss].
  cbn [dims12 items ncols rows] in *. injection Hdims as -> ->. subst ns'.
  unfold wf_array3 in Hwf. cbn [dims12 items fst snd] in Hwf.
  unfold wf_array2 in Hwfs. cbn [ncols rows] in Hwfs.
  assert (HxT : Forall (fun xb => length xb = T) xbs).
  { eapply Forall_impl; [| exact Hwf]. now intros xb [H _]. }
  assert (Hxts : Forall (fun xt => length xt = length ss) (transpose T xbs)).
  { replace (length ss) with (length xbs) by congruence.
    apply transpose_rows_length. }
  destruct (@batch_run_shapes nin ns nout ub (rnn_cell o) (out_layer o)
              (transpose T xbs) ss Hd Hl Hxts Hwfs) as (H1 & H2 & H3).
  exists (map (Array2 nout)
            (fst (batch_run (rnn_cell o) (out_layer o) (transpose T xbs) ss))),
    {| ncols := ns;
       rows := snd (batch_run (rnn_cell o) (out_layer o) (transpose T xbs) ss) |}.
  split; [| split; [| split; [| repeat split]]].
  - unfold outcome, RNN_call, transpose102, slices3.
    cbn [dims12 items fst snd].
    rewrite run_bind, (@RNN_scan_run _ _ nin ns nout ub o Hd Hl _ _ Hxts).
    now rewrite run_ret.
  - rewrite length_map, batch_run_length. apply (transpose_length HxT).
  - apply Forall_map. eapply Forall_impl; [| exact H1].
    intros m [Hm Hall]. cbn [ncols rows]. repeat split; [congruence | exact Hall].
  - cbn [rows]. congruence.
  - exact H3.
Qed.

(** A state of one row is broadcast: the two-weight cell called with a state
    of shape [(1, nstate)] and an input of shape [(B, nin)] does not raise; it
    returns [B] rows, row [b] being the update of that one state by input
    [b]. *)
Theorem DDLRnnCell_call_broadcasts_one_state (nin ns : nat)
    (self : DDLRnnCell R) (s0 : list R) (x : array2 R) :
  is_DDLRnnCell nin ns self -> ncols x = nin ->
  run (DDLRnnCell_call {| ncols := ns; rows := [s0] |} x) self =
  (Ok {| ncols := ns; rows := map (ddl_step self s0) (rows x) |}, self).
Proof.
  intros [Hx Hh] Hi. unfold DDLRnnCell_call.
  rewrite run_bind, run_get, run_bind, run_pure.
  rewrite (Linear_call_array2 _ Hh) by reflexivity.
  rewrite run_bind, run_pure, (Linear_call_array2 _ Hx Hi).
  cbn [plus Tensor2 rows map]. unfold add2. cbn [ncols rows length].
  rewrite bcast_dim_same, length_map, bcast_dim_one_l.
  cbn [bind ret Monad_result Monad_either].
  rewrite run_bind, run_pure, run_ret. cbn [apply Tensor2 ncols rows].
  do 3 f_equal. rewrite stretch_singleton.
  rewrite (stretch_same (map (affine (wxh self)) (rows x)))
    by apply length_map.
  rewrite <- (length_map (affine (wxh self)) (rows x)) at 1.
  rewrite zipWith_repeat_l, !map_map. apply map_ext. intros xi.
  unfold ddl_step.
  now rewrite !stretch_same
    by (first [apply (affine_length _ Hh) | apply (affine_length _ Hx)]).
Qed.

(** The simple cell cannot work on a batch: called with an input of shape
    [(B, nin)], as the driver [RNN] calls its cell, it raises a shape error
    whatever the state, as soon as [nstate > 0], since it stacks the rows of
    the input and of the state instead of joining each input to its state.
    So [RNN] with this cell raises on every batch of sequences of at least
    one element. *)
Theorem MyRnnCell_call_batch_raises (nin ns : nat) (self : MyRnnCell R) :
  is_MyRnnCell nin ns self -> 0 < ns ->
  (forall state x : array2 R, ncols x = nin ->
     outcome (MyRnnCell_call_batch state x) self = Err ShapeError) /\
  (forall (O : Type) (layer : array2 R -> exec (MyRnnCell R) O)
          (x : array3 R) (state : array2 R) (T : nat),
     wf_array3 x -> dims12 x = (S T, nin) ->
     outcome (RNN_call {| cell := MyRnnCell_call_batch;
                          output_layer := layer |} x state) self =
       Err ShapeError).
Proof.
  intros (l1 & l2 & act & Hop & H1 & H2) Hns.
  assert (Hcell : forall state x : array2 R, ncols x = nin ->
            run (MyRnnCell_call_batch state x) self = (Err ShapeError, self)).
  { intros state x Hx. unfold MyRnnCell_call_batch.
    rewrite run_bind, run_get, run_bind, run_pure. unfold concatenate2.
    destruct (forallb _ [state]); [| reflexivity].
    cbn [ret Monad_result Monad_either]. rewrite run_pure, Hop.
    unfold Sequential_call. cbn [for_each layer_call].
    rewrite Linear_call_array2_mismatch; [reflexivity |].
    destruct H1 as (Hr & _). cbn [ncols]. rewrite Hr, Hx. lia. }
  split.
  - intros state x Hx. unfold outcome. now rewrite Hcell.
  - intros O layer [[T' nin'] xbs] state T Hwf Hdims.
    cbn [dims12] in Hdims. injection Hdims as -> ->.
    unfold wf_array3 in Hwf. cbn [dims12 items fst snd] in Hwf.
    assert (HxT : Forall (fun xb => length xb = S T) xbs).
    { eapply Forall_impl; [| exact Hwf]. now intros xb [H _]. }
    pose proof (transpose_length HxT) as Hlen.
    unfold outcome, RNN_call, transpose102, slices3.
    cbn [dims12 items fst snd].
    destruct (transpose (S T) xbs) as [| xt xts]; [discriminate |].
    cbn [map scan]. rewrite !run_bind. unfold RNN_single at 1.
    cbn [cell]. rewrite run_bind, Hcell by reflexivity. reflexivity.
Qed.

End Batches.

(** ** Reordering twice *)

Lemma transpose_transpose {A} (n : nat) (m : list (list A)) :
  Forall (fun r => length r = n) m ->
  transpose (length m) (transpose n m) = m.
Proof.
  revert m. induction n as [| n IH]; intros m Hm.
  - rewrite transpose_0. cbn [transpose].
    induction Hm as [| r m Hr Hm IHm]; [reflexivity |].
    destruct r; [| discriminate]. cbn [length repeat]. now rewrite IHm.
  - destruct (columns Hm) as (heads & tails & -> & Hh & Ht & Hall).
    rewrite transpose_cons_columns by congruence. cbn [transpose].
    rewrite <- Ht, (IH tails Hall). reflexivity.
Qed.

Section Reordering.

Context {R : Type}.

(** [x.transpose((1, 0, 2))] applied twice gives the array back: what [RNN]
    does to its batch-major input is undone by the same reordering, which is
    how the script compares the time-major output of [RNN] with a batch-major
    one. *)
Theorem transpose102_twice (x : array3 R) :
  wf_array3 x -> transpose102 (transpose102 x) = x.
Proof.
  destruct x as [[T nin] xbs]. unfold wf_array3, transpose102.
  cbn [dims12 items fst snd]. intros Hwf.
  assert (HxT : Forall (fun xb => length xb = T) xbs).
  { eapply Forall_impl; [| exact Hwf]. now intros xb [H _]. }
  rewrite (transpose_length HxT), (transpose_transpose HxT). reflexivity.
Qed.

End Reordering.

(** * The further properties on concrete objects *)

Lemma DDLRnnCell_call_returns_iff_witness :
  ((exists new_state,
      outcome (DDLRnnCell_call Sample.state0 [1; 0]%Z) Sample.ddl =
        Ok new_state)
   <-> length Sample.state0 = 2 /\ length [1; 0]%Z = 2) /\
  (length [0; 1; 2]%Z <> 2 \/ length [1; 0]%Z <> 2 ->
   outcome (DDLRnnCell_call [0; 1; 2]%Z [1; 0]%Z) Sample.ddl =
     Err ShapeError).
Proof.
  split.
  - apply (@DDLRnnCell_call_returns_iff Z _ 2 2 Sample.ddl Sample.state0
             [1; 0]%Z); shapes.
  - apply (@DDLRnnCell_call_returns_iff Z _ 2 2 Sample.ddl [0; 1; 2]%Z
             [1; 0]%Z); shapes.
Defined.

Lemma MyRnnCell_call_returns_iff_witness :
  ((exists new_state,
      outcome (MyRnnCell_call [5; 6; 7]%Z [1; 2]%Z) Sample.my = Ok new_state)
   <-> length [1; 2]%Z + length [5; 6; 7]%Z = 3 + 2) /\
  (length [1; 2; 3]%Z + length [5; 6; 7]%Z <> 3 + 2 ->
   outcome (MyRnnCell_call [5; 6; 7]%Z [1; 2; 3]%Z) Sample.my =
     Err ShapeError).
Proof.
  assert (Hmy : is_MyRnnCell 3 2 Sample.my) by (eexists _, _, _; shapes).
  split.
  - apply (@MyRnnCell_call_returns_iff Z _ 3 2 Sample.my [5; 6; 7]%Z
             [1; 2]%Z Hmy).
  - apply (@MyRnnCell_call_returns_iff Z _ 3 2 Sample.my [5; 6; 7]%Z
             [1; 2; 3]%Z Hmy).
Defined.

Lemma FactorizedRnnCell_call_returns_iff_witness :
  ((exists out,
      outcome (FactorizedRnnCell_call Sample.state0 Sample.xs)
        Sample.factorized = Ok out)
   <-> ncols Sample.xs = 2 /\ rows Sample.xs <> [] /\
       length Sample.state0 = 2) /\
  outcome (FactorizedRnnCell_call [0; 1; 2]%Z Sample.xs_empty)
    Sample.factorized = Err ValueError /\
  outcome (FactorizedRnnCell_call [0; 1; 2]%Z Sample.xs)
    Sample.factorized = Err ShapeError.
Proof.
  assert (Hf : is_FactorizedRnnCell 2 2 Sample.factorized) by shapes.
  split; [| split].
  - apply (@FactorizedRnnCell_call_returns_iff Z _ 2 2 Sample.factorized
             Sample.state0 Sample.xs Hf).
  - apply (@FactorizedRnnCell_call_returns_iff Z _ 2 2 Sample.factorized
             [0; 1; 2]%Z Sample.xs_empty Hf); reflexivity.
  - apply (@FactorizedRnnCell_call_returns_iff Z _ 2 2 Sample.factorized
             [0; 1; 2]%Z Sample.xs Hf); shapes.
Defined.

Lemma FactorizedRnnCell_call_in_two_parts_witness :
  exists mid,
    outcome (FactorizedRnnCell_call Sample.state0
               {| ncols := 2; rows := [[1; 0]]%Z |}) Sample.factorized =
      Ok {| ncols := 2; rows := [mid] |} /\
    outcome (FactorizedRnnCell_call mid
               {| ncols := 2; rows := [[0; 1]; [2; 1]]%Z |})
      (after (FactorizedRnnCell_call Sample.state0
                {| ncols := 2; rows := [[1; 0]]%Z |}) Sample.factorized) =
    outcome (FactorizedRnnCell_call Sample.state0
               {| ncols := 2; rows := [[1; 0]] ++ [[0; 1]; [2; 1]] |}%Z)
      Sample.factorized.
Proof.
  apply (@FactorizedRnnCell_call_in_two_parts Z _ 2 2 Sample.factorized
           Sample.state0 [[1; 0]]%Z [[0; 1]; [2; 1]]%Z); shapes.
Defined.

Lemma FactorizedRNN_call_is_last_output_witness :
  exists outputs final,
    outcome (VectorizedRNN_call r_VectorizedRNN Sample.xs Sample.state0)
      Sample.store = Ok (outputs, final) /\
    length outputs = length (rows Sample.xs) /\
    Forall (fun y => length y = 1) outputs /\
    length final = 2 /\
    outcome (FactorizedRNN_call f_FactorizedRNN Sample.xs Sample.state0)
      Sample.store =
      Ok ({| ncols := 1; rows := [last outputs []] |}, final).
Proof.
  apply (@FactorizedRNN_call_is_last_output Z _ 2 2 1 true Sample.store
           Sample.xs Sample.state0); shapes.
Defined.

Lemma factorized_script_asserts_hold_witness :
  exists last_row,
    index_last {| ncols := 2; rows := [[9; 0]]%Z |} = Ok last_row /\
    outcome (factorized_script Sample.xs Sample.state0) Sample.store =
      Ok ({| ncols := 2; rows := [[9; 0]]%Z |},
          {| ncols := 1; rows := [[14]]%Z |},
          ({| ncols := 1; rows := [[14]]%Z |}, last_row)).
Proof.
  apply (@factorized_script_asserts_hold Z _ Sample.store Sample.xs
           Sample.state0); vm_compute; reflexivity.
Defined.

Lemma RNN_call_result_shapes_witness :
  exists outputs final_state,
    outcome (RNN_call r_RNN Sample.batch Sample.states) Sample.store =
      Ok (outputs, final_state) /\
    length outputs = 2 /\
    Forall (fun y => ncols y = 1 /\ length (rows y) = 2 /\ wf_array2 y)
      outputs /\
    ncols final_state = 2 /\ length (rows final_state) = 2 /\
    wf_array2 final_state.
Proof.
  apply (@RNN_call_result_shapes Z _ 2 2 1 2 2 true Sample.store
           Sample.batch Sample.states); shapes.
Defined.

Lemma DDLRnnCell_call_broadcasts_one_state_witness :
  run (DDLRnnCell_call {| ncols := 2; rows := [Sample.state0] |} Sample.xs)
    Sample.ddl =
  (Ok {| ncols := 2;
         rows := map (ddl_step Sample.ddl Sample.state0) (rows Sample.xs) |},
   Sample.ddl).
Proof.
  apply (@DDLRnnCell_call_broadcasts_one_state Z _ 2 2 Sample.ddl
           Sample.state0 Sample.xs); shapes.
Defined.

Lemma MyRnnCell_call_batch_raises_witness :
  0 < 2 /\
  outcome (MyRnnCell_call_batch {| ncols := 2; rows := [[0; 0]]%Z |}
             {| ncols := 3; rows := [[1; 2; 3]]%Z |}) Sample.my =
    Err ShapeError /\
  outcome (MyRnnCell_call_batch {| ncols := 3; rows := [[0; 0; 0]]%Z |}
             {| ncols := 3; rows := [[1; 2; 3]]%Z |}) Sample.my =
    Err ShapeError.
Proof.
  assert (Hmy : is_MyRnnCell 3 2 Sample.my) by (eexists _, _, _; shapes).
  split; [lia |].
  destruct (@MyRnnCell_call_batch_raises Z _ 3 2 Sample.my Hmy) as [Hcell _];
    [lia |].
  split; apply Hcell; reflexivity.
Defined.

Lemma transpose102_twice_witness :
  wf_array3 Sample.batch /\
  transpose102 (transpose102 Sample.batch) = Sample.batch.
Proof.
  assert (Hwf : wf_array3 Sample.batch) by shapes.
  split; [exact Hwf |]. apply (transpose102_twice Hwf).
Defined.
